(** * slonik: the query execution routine ([src/routines/executeQuery.js])

    A shallow embedding of the routine that runs one SQL statement through
    the interceptor chain, hands it to an injected execution routine,
    classifies driver failures and returns the result, followed by the
    properties of its error handling, listener discipline and hook order. *)

From Stdlib Require Import String Ascii List Bool Arith Lia ZArith Sorted.
Import ListNotations.
Open Scope string_scope.

(** ** Strings

    A JavaScript string is read as a [string] whose characters are code
    units below 256. *)

(** The characters [String.prototype.trim] strips (ECMAScript WhiteSpace and
    LineTerminator) that lie below 256: TAB, LF, VT, FF, CR, SP and NBSP. *)
Definition isWhiteSpace (c : ascii) : bool :=
  let n := nat_of_ascii c in
  ((9 <=? n)%nat && (n <=? 13)%nat) || (n =? 32)%nat || (n =? 160)%nat.

Fixpoint trimStart (s : string) : string :=
  match s with
  | EmptyString => EmptyString
  | String c t => if isWhiteSpace c then trimStart t else s
  end.

Fixpoint trimEnd (s : string) : string :=
  match s with
  | EmptyString => EmptyString
  | String c t =>
      match trimEnd t with
      | EmptyString => if isWhiteSpace c then EmptyString else String c EmptyString
      | t' => String c t'
      end
  end.

(** [rawSql.trim()] *)
Definition trim (s : string) : string := trimEnd (trimStart s).

(** [s.includes(sub)] *)
Fixpoint includes (s sub : string) : bool :=
  String.prefix sub s ||
  match s with
  | EmptyString => false
  | String _ t => includes t sub
  end.

(** ** Errors *)

(** The error object the execution routine rejects with: the driver's
    [code], [message] and [constraint] fields ([code] and [constraint] may
    be undefined). *)
Record DriverError := {
  code : option string;
  message : string;
  constraint : option string
}.

(** What the routine, or a hook, can throw: the error classes imported from
    [../errors], each with its constructor arguments, and [Raw] for an error
    object thrown as it is. *)
Inductive Thrown :=
| Raw (error : DriverError)
| BackendTerminatedError (error : DriverError)
| InvalidInputError (msg : string)
| StatementTimeoutError (error : DriverError)
| StatementCancelledError (error : DriverError)
| NotNullIntegrityConstraintViolationError (error : DriverError) (name : option string)
| ForeignKeyIntegrityConstraintViolationError (error : DriverError) (name : option string)
| UniqueIntegrityConstraintViolationError (error : DriverError) (name : option string)
| CheckIntegrityConstraintViolationError (error : DriverError) (name : option string).

(** How a call ends: with a value returned (or a promise fulfilled), or
    with a value thrown (or, where the routine awaits the call, a promise
    rejected). *)
Inductive Outcome (A : Type) :=
| Returned (a : A)
| Threw (t : Thrown).
Arguments Returned {A} a.
Arguments Threw {A} t.

(** [error.code === c] *)
Definition code_is (error : DriverError) (c : string) : bool :=
  match code error with
  | Some c' => String.eqb c' c
  | None => false
  end.

(** A frame as [getStackTrace] reports it, and as the routine keeps it. *)
Record RawCallSite := {
  raw_columnNumber : nat;
  raw_fileName : string;
  raw_functionName : string;
  raw_lineNumber : nat
}.

Record CallSite := {
  columnNumber : nat;
  fileName : string;
  lineNumber : nat
}.

(** [connection.connection.slonik] together with the connection's table of
    ['notice'] listeners and its [native] flag. A listener is named by the
    number of the closure it is. *)
Record Connection := {
  connectionId : string;
  poolId : string;
  transactionId : option string;
  terminated : option DriverError;
  native : bool;
  listeners : list nat
}.

Definition set_terminated (c : Connection) (error : DriverError) : Connection :=
  {| connectionId := connectionId c; poolId := poolId c;
     transactionId := transactionId c; terminated := Some error;
     native := native c; listeners := listeners c |}.

Definition set_listeners (c : Connection) (ls : list nat) : Connection :=
  {| connectionId := connectionId c; poolId := poolId c;
     transactionId := transactionId c; terminated := terminated c;
     native := native c; listeners := ls |}.

(** [emitter.off(name, f)] removes the most recently added instance of [f]. *)
Fixpoint remove_last (l : nat) (ls : list nat) : list nat :=
  match ls with
  | [] => []
  | x :: rest =>
      if existsb (Nat.eqb l) rest then x :: remove_last l rest
      else if Nat.eqb l x then rest else x :: rest
  end.

(** The values the ambient calls of one invocation return:
    [process.hrtime.bigint()], [getStackTrace()] and [createQueryId()]. *)
Record Runtime := {
  hrtime : Z;
  stack : list RawCallSite;
  freshQueryId : string
}.

Declare Scope js_scope.
Delimit Scope js_scope with js.

(** The two messages the routine logs. *)
Definition msg_short_circuit : string :=
  "beforeQueryExecution interceptor produced a result; short-circuiting query execution using beforeQueryExecution result".

Definition msg_execution_error : string := "execution routine produced an error".

Section Model.

(** The types [../types] declares and the state the collaborators (hooks,
    execution routine) act on: [W] is everything they can reach, the
    context's [sandbox] included; [Any] is what a hook called for its effect
    returns, which the routine drops.

    Queries, results and rows are values: [../types] declares their fields
    read-only, so a hook changes one by returning another. The connection's
    [slonik] record and its listeners are no part of [W]: the hooks are
    handed the context, the query and a result, row or error, none of which
    leads to the connection. *)
Context {W Value Row Field Notice Any : Type}.

Record Query := {
  sql : string;
  values : list Value
}.

Record QueryResult := {
  rows : option (list Row);
  fields : option (list Field);
  notices : list Notice
}.

Record QueryContext := {
  ctx_connectionId : string;
  ctx_originalQuery : Query;
  ctx_poolId : string;
  ctx_queryId : string;
  ctx_queryInputTime : Z;
  ctx_stackTrace : option (list CallSite);
  ctx_transactionId : option string
}.

(** A collaborator's call: it acts on [W] and returns or throws. *)
Definition Hook (A : Type) : Type := W -> Outcome A * W.

Record Interceptor := {
  beforeTransformQuery : option (QueryContext -> Query -> Hook Any);
  transformQuery : option (QueryContext -> Query -> Hook Query);
  beforeQueryExecution : option (QueryContext -> Query -> Hook (option QueryResult));
  queryExecutionError : option (QueryContext -> Query -> Thrown -> Hook Any);
  afterQueryExecution : option (QueryContext -> Query -> QueryResult -> Hook Any);
  transformRow : option (QueryContext -> Query -> Row -> option (list Field) -> Hook Row);
  beforeQueryResult : option (QueryContext -> Query -> QueryResult -> Hook Any)
}.

Record ClientConfiguration := {
  captureStackTrace : bool;
  interceptors : list Interceptor
}.

(** The injected execution routine: it rejects with a driver error or
    resolves with a result, and the driver emits notices meanwhile. *)
Definition ExecutionRoutine : Type :=
  Connection -> string -> list Value -> QueryContext -> Query ->
  W -> (DriverError + QueryResult) * list Notice * W.

(** ** The calls the routine makes

    Every call to a collaborator is recorded with its arguments and how it
    ended; [i] is the position of the interceptor in
    [clientConfiguration.interceptors]. *)
Inductive Event :=
| LogInfo (msg : string)
| LogError (error : DriverError) (msg : string)
| BeforeTransformQuery (i : nat) (q : Query) (out : Outcome Any)
| TransformQuery (i : nat) (q : Query) (out : Outcome Query)
| BeforeQueryExecution (i : nat) (q : Query) (out : Outcome (option QueryResult))
| ListenerOn (l : nat)
| Execute (text : string) (vals : list Value) (q : Query) (out : DriverError + QueryResult)
| ListenerOff (l : nat)
| QueryExecutionError (i : nat) (q : Query) (error : Thrown) (out : Outcome Any)
| AfterQueryExecution (i : nat) (q : Query) (result : QueryResult) (out : Outcome Any)
| TransformRow (i : nat) (q : Query) (row : Row) (fs : option (list Field)) (out : Outcome Row)
| BeforeQueryResult (i : nat) (q : Query) (result : QueryResult) (out : Outcome Any).

(** ** State and the monad of the routine *)

Record St := {
  world : W;
  connection : Connection;
  closures : nat
}.

Record Run (A : Type) := {
  outcome : Outcome A;
  final : St;
  events : list Event
}.
Arguments outcome {A} r.
Arguments final {A} r.
Arguments events {A} r.

Definition M (A : Type) : Type := St -> Run A.

Definition ret {A} (a : A) : M A :=
  fun s => {| outcome := Returned a; final := s; events := [] |}.

Definition throw {A} (t : Thrown) : M A :=
  fun s => {| outcome := Threw t; final := s; events := [] |}.

Definition bind {A B} (m : M A) (k : A -> M B) : M B :=
  fun s =>
    let r := m s in
    match outcome r with
    | Returned a =>
        let r' := k a (final r) in
        {| outcome := outcome r'; final := final r';
           events := events r ++ events r' |}
    | Threw t => {| outcome := Threw t; final := final r; events := events r |}
    end.

(** [try { m } catch (error) { h error }] *)
Definition try_catch {A} (m : M A) (h : Thrown -> M A) : M A :=
  fun s =>
    let r := m s in
    match outcome r with
    | Returned _ => r
    | Threw t =>
        let r' := h t (final r) in
        {| outcome := outcome r'; final := final r';
           events := events r ++ events r' |}
    end.

(** [try { m } finally { fin }] *)
Definition try_finally {A} (m : M A) (fin : M unit) : M A :=
  fun s =>
    let r := m s in
    let r' := fin (final r) in
    {| outcome := match outcome r' with
                  | Returned _ => outcome r
                  | Threw t => Threw t
                  end;
       final := final r';
       events := events r ++ events r' |}.

Definition emit (e : Event) : M unit :=
  fun s => {| outcome := Returned tt; final := s; events := [e] |}.

Definition get_connection : M Connection :=
  fun s => {| outcome := Returned (connection s); final := s; events := [] |}.

Definition put_connection (c : Connection) : M unit :=
  fun s => {| outcome := Returned tt;
              final := {| world := world s; connection := c; closures := closures s |};
              events := [] |}.

(** A call to a hook: the hook acts on the world, and the call is recorded. *)
Definition call {A} (ev : Outcome A -> Event) (h : Hook A) : M A :=
  fun s =>
    let done := h (world s) in
    {| outcome := fst done;
       final := {| world := snd done; connection := connection s;
                   closures := closures s |};
       events := [ev (fst done)] |}.

(** A new closure: its number is the count of closures made so far. *)
Definition new_closure : M nat :=
  fun s => {| outcome := Returned (closures s);
              final := {| world := world s; connection := connection s;
                          closures := S (closures s) |};
              events := [] |}.

Local Notation "x <- m ;; k" := (bind m (fun x => k))
  (at level 61, m at next level, right associativity).
Local Notation "m ;; k" := (bind m (fun _ => k))
  (at level 61, right associativity).

(** [connection.on('notice', noticeListener)] *)
Definition on (l : nat) : M unit :=
  conn <- get_connection ;;
  put_connection (set_listeners conn (listeners conn ++ [l])) ;;
  emit (ListenerOn l).

(** [connection.off('notice', noticeListener)] *)
Definition off (l : nat) : M unit :=
  conn <- get_connection ;;
  put_connection (set_listeners conn (remove_last l (listeners conn))) ;;
  emit (ListenerOff l).

(** [for (const interceptor of clientConfiguration.interceptors) body], the
    loop's variables threaded as [a]; [i] counts the interceptors passed. *)
Fixpoint forOf {A} (body : nat -> Interceptor -> A -> M A)
    (i : nat) (l : list Interceptor) (a : A) : M A :=
  match l with
  | [] => ret a
  | x :: rest => a' <- body i x a ;; forOf body (S i) rest a'
  end.

(** [map(xs, f)] of [inline-loops.macro], with a callback that can throw. *)
Fixpoint mapM {A B} (f : A -> M B) (xs : list A) : M (list B) :=
  match xs with
  | [] => ret []
  | x :: rest => y <- f x ;; ys <- mapM f rest ;; ret (y :: ys)
  end.

Section Routine.

(** [normaliseQueryValues] of [../utilities]. *)
Variable normaliseQueryValues : list Value -> bool -> list Value.

Variable clientConfiguration : ClientConfiguration.
Variable executionContext : QueryContext.

(** Lines 110-114. *)
Definition beforeTransformQuery_body (actualQuery : Query)
    (i : nat) (interceptor : Interceptor) (_ : unit) : M unit :=
  match beforeTransformQuery interceptor with
  | Some hook =>
      _ <- call (BeforeTransformQuery i actualQuery) (hook executionContext actualQuery) ;;
      ret tt
  | None => ret tt
  end.

(** Lines 116-120. *)
Definition transformQuery_body
    (i : nat) (interceptor : Interceptor) (actualQuery : Query) : M Query :=
  match transformQuery interceptor with
  | Some hook => call (TransformQuery i actualQuery) (hook executionContext actualQuery)
  | None => ret actualQuery
  end.

(** Lines 124-134: the loop returns [Some result] where the source returns
    [result] from the routine, and [None] where it falls through. *)
Fixpoint beforeQueryExecution_loop (actualQuery : Query)
    (i : nat) (l : list Interceptor) : M (option QueryResult) :=
  match l with
  | [] => ret None
  | interceptor :: rest =>
      match beforeQueryExecution interceptor with
      | Some hook =>
          result <- call (BeforeQueryExecution i actualQuery)
                         (hook executionContext actualQuery) ;;
          match result with
          | Some r =>
              emit (LogInfo msg_short_circuit) ;;
              ret (Some r)
          | None => beforeQueryExecution_loop actualQuery (S i) rest
          end
      | None => beforeQueryExecution_loop actualQuery (S i) rest
      end
  end.

(** Lines 153-190, the inner [catch] block. *)
Definition classifyError {A} (error : DriverError) : M A :=
  emit (LogError error msg_execution_error) ;;
  if code_is error "57P01" || (message error =? "Connection terminated") then
    conn <- get_connection ;;
    put_connection (set_terminated conn error) ;;
    throw (BackendTerminatedError error)
  else if code_is error "57014"
          && includes (message error) "canceling statement due to statement timeout" then
    throw (StatementTimeoutError error)
  else if code_is error "57014" then
    throw (StatementCancelledError error)
  else if code_is error "23502" then
    throw (NotNullIntegrityConstraintViolationError error (constraint error))
  else if code_is error "23503" then
    throw (ForeignKeyIntegrityConstraintViolationError error (constraint error))
  else if code_is error "23505" then
    throw (UniqueIntegrityConstraintViolationError error (constraint error))
  else if code_is error "23514" then
    throw (CheckIntegrityConstraintViolationError error (constraint error))
  else
    throw (Raw error).

(** Lines 146-152: [await executionRoutine(...)]. The notices the driver
    emits meanwhile reach [noticeListener] if it is attached, which pushes
    them to [notices]. *)
Definition await_executionRoutine (executionRoutine : ExecutionRoutine)
    (noticeListener : nat) (actualQuery : Query)
    : M ((DriverError + QueryResult) * list Notice) :=
  fun s =>
    let conn := connection s in
    let text := sql actualQuery in
    let vals := normaliseQueryValues (values actualQuery) (native conn) in
    let settled :=
      executionRoutine conn text vals executionContext actualQuery (world s) in
    let out := fst (fst settled) in
    let emitted := snd (fst settled) in
    {| outcome :=
         Returned (out, if existsb (Nat.eqb noticeListener) (listeners conn)
                        then emitted else []);
       final := {| world := snd settled; connection := conn; closures := closures s |};
       events := [Execute text vals actualQuery out] |}.

(** Lines 195-199. *)
Definition queryExecutionError_body (actualQuery : Query) (error : Thrown)
    (i : nat) (interceptor : Interceptor) (_ : unit) : M unit :=
  match queryExecutionError interceptor with
  | Some hook =>
      _ <- call (QueryExecutionError i actualQuery error)
                (hook executionContext actualQuery error) ;;
      ret tt
  | None => ret tt
  end.

(** Lines 144-202: the two nested [try] statements. It returns the result
    with the array [notices]. *)
Definition attempt (executionRoutine : ExecutionRoutine)
    (noticeListener : nat) (actualQuery : Query) : M (QueryResult * list Notice) :=
  try_catch
    (try_finally
       (settled <- await_executionRoutine executionRoutine noticeListener actualQuery ;;
        match fst settled with
        | inr result => ret (result, snd settled)
        | inl error => classifyError error
        end)
       (off noticeListener))
    (fun error =>
       forOf (queryExecutionError_body actualQuery error) 0
             (interceptors clientConfiguration) tt ;;
       throw error).

(** Lines 207-211. *)
Definition afterQueryExecution_body (actualQuery : Query) (result : QueryResult)
    (i : nat) (interceptor : Interceptor) (_ : unit) : M unit :=
  match afterQueryExecution interceptor with
  | Some hook =>
      _ <- call (AfterQueryExecution i actualQuery result)
                (hook executionContext actualQuery result) ;;
      ret tt
  | None => ret tt
  end.

(** Lines 216-229. [result.rows] is an array whenever the loop runs: line 214
    has tested it and every pass stores an array. *)
Definition transformRow_body (actualQuery : Query)
    (i : nat) (interceptor : Interceptor) (result : QueryResult) : M QueryResult :=
  match transformRow interceptor with
  | Some hook =>
      let fs := fields result in
      match rows result with
      | Some rs =>
          rows' <- mapM (fun row => call (TransformRow i actualQuery row fs)
                                         (hook executionContext actualQuery row fs)) rs ;;
          ret {| rows := Some rows'; fields := fields result; notices := notices result |}
      | None => ret result
      end
  | None => ret result
  end.

(** Lines 233-237. *)
Definition beforeQueryResult_body (actualQuery : Query) (result : QueryResult)
    (i : nat) (interceptor : Interceptor) (_ : unit) : M unit :=
  match beforeQueryResult interceptor with
  | Some hook =>
      _ <- call (BeforeQueryResult i actualQuery result)
                (hook executionContext actualQuery result) ;;
      ret tt
  | None => ret tt
  end.

(** Lines 205-239, after a successful execution. *)
Definition complete (actualQuery : Query) (settled : QueryResult * list Notice)
    : M QueryResult :=
  let result := {| rows := rows (fst settled); fields := fields (fst settled);
                   notices := snd settled |} in
  forOf (afterQueryExecution_body actualQuery result) 0
        (interceptors clientConfiguration) tt ;;
  result <- match rows result with
            | Some _ => forOf (transformRow_body actualQuery) 0
                              (interceptors clientConfiguration) result
            | None => ret result
            end ;;
  forOf (beforeQueryResult_body actualQuery result) 0
        (interceptors clientConfiguration) tt ;;
  ret result.

(** Lines 110-134: the hooks that run before the execution. It returns the
    query to execute and the result a [beforeQueryExecution] hook gave, if
    one did. *)
Definition prepare (originalQuery : Query) : M (Query * option QueryResult) :=
  let actualQuery := originalQuery in
  forOf (beforeTransformQuery_body actualQuery) 0
        (interceptors clientConfiguration) tt ;;
  actualQuery <- forOf transformQuery_body 0
                       (interceptors clientConfiguration) actualQuery ;;
  short <- beforeQueryExecution_loop actualQuery 0 (interceptors clientConfiguration) ;;
  ret (actualQuery, short).

(** Lines 110-239, with the context built. *)
Definition pipeline (executionRoutine : ExecutionRoutine) (originalQuery : Query)
    : M QueryResult :=
  prepared <- prepare originalQuery ;;
  let actualQuery := fst prepared in
  match snd prepared with
  | Some result => ret result
  | None =>
      noticeListener <- new_closure ;;
      on noticeListener ;;
      settled <- attempt executionRoutine noticeListener actualQuery ;;
      complete actualQuery settled
  end.

End Routine.

(** Lines 67-108: the context of the call. [inheritedQueryId || createQueryId()]
    takes the inherited identifier unless it is absent or empty. The logger
    child and the [sandbox] are not part of the record: logging is recorded
    among the events, the sandbox lives in [W]. *)
Definition make_context (rt : Runtime) (clientConfiguration : ClientConfiguration)
    (conn : Connection) (originalQuery : Query) (inheritedQueryId : option string)
    : QueryContext :=
  let queryInputTime := hrtime rt in
  let stackTrace :=
    if captureStackTrace clientConfiguration then
      Some (map (fun callSite =>
                   {| columnNumber := raw_columnNumber callSite;
                      fileName := raw_fileName callSite;
                      lineNumber := raw_lineNumber callSite |}) (stack rt))
    else None in
  let queryId :=
    match inheritedQueryId with
    | Some id => if id =? "" then freshQueryId rt else id
    | None => freshQueryId rt
    end in
  {| ctx_connectionId := connectionId conn;
     ctx_originalQuery := originalQuery;
     ctx_poolId := poolId conn;
     ctx_queryId := queryId;
     ctx_queryInputTime := queryInputTime;
     ctx_stackTrace := stackTrace;
     ctx_transactionId := transactionId conn |}.

(** The default export. The connection is the state the routine runs in;
    [connectionLogger] has no counterpart, the log calls being recorded
    among the events. *)
Definition executeQuery
    (normaliseQueryValues : list Value -> bool -> list Value)
    (rt : Runtime)
    (clientConfiguration : ClientConfiguration)
    (rawSql : string)
    (values : list Value)
    (inheritedQueryId : option string)
    (executionRoutine : ExecutionRoutine) : M QueryResult :=
  conn <- get_connection ;;
  match terminated conn with
  | Some cause => throw (BackendTerminatedError cause)
  | None =>
      if trim rawSql =? "" then
        throw (InvalidInputError "Unexpected SQL input. Query cannot be empty.")
      else if trim rawSql =? "$1" then
        throw (InvalidInputError "Unexpected SQL input. Query cannot be empty. Found only value binding.")
      else
        let originalQuery := {| sql := rawSql; values := values |} in
        let executionContext :=
          make_context rt clientConfiguration conn originalQuery inheritedQueryId in
        pipeline normaliseQueryValues clientConfiguration executionContext
                 executionRoutine originalQuery
  end.

(** ** Vocabulary of the properties *)

(** The termination test of line 160. *)
Definition is_termination (error : DriverError) : bool :=
  code_is error "57P01" || (message error =? "Connection terminated").

(** The message test of line 166. *)
Definition is_timeout (error : DriverError) : bool :=
  includes (message error) "canceling statement due to statement timeout".

(** The classification as an ordered table of (predicate, error kind), the
    first matching row deciding, and an unmatched error passed through. *)
Definition classification_table : list ((DriverError -> bool) * (DriverError -> Thrown)) :=
  [ (is_termination, BackendTerminatedError);
    (fun e => code_is e "57014" && is_timeout e, StatementTimeoutError);
    (fun e => code_is e "57014", StatementCancelledError);
    (fun e => code_is e "23502",
     fun e => NotNullIntegrityConstraintViolationError e (constraint e));
    (fun e => code_is e "23503",
     fun e => ForeignKeyIntegrityConstraintViolationError e (constraint e));
    (fun e => code_is e "23505",
     fun e => UniqueIntegrityConstraintViolationError e (constraint e));
    (fun e => code_is e "23514",
     fun e => CheckIntegrityConstraintViolationError e (constraint e)) ].

Definition classification (error : DriverError) : Thrown :=
  match find (fun row => fst row error) classification_table with
  | Some row => snd row error
  | None => Raw error
  end.

Definition has {A} (o : option A) : bool :=
  match o with Some _ => true | None => false end.

(** The positions, counted from [i], of the interceptors of [l] that
    satisfy [p], in the order of the list. *)
Fixpoint positions (p : Interceptor -> bool) (i : nat) (l : list Interceptor) : list nat :=
  match l with
  | [] => []
  | x :: rest => if p x then i :: positions p (S i) rest else positions p (S i) rest
  end.

(** The calls of one hook point made for their effect: the hooks at the
    positions [idx] are called one after the other, each after the one
    before has returned, and the first that throws ends the sequence. *)
Inductive sequence (ev : nat -> Outcome Any -> Event)
  : list nat -> list Event -> Outcome unit -> Prop :=
| sequence_end : sequence ev [] [] (Returned tt)
| sequence_step i idx a evs o :
    sequence ev idx evs o ->
    sequence ev (i :: idx) (ev i (Returned a) :: evs) o
| sequence_throw i idx t :
    sequence ev (i :: idx) [ev i (Threw t)] (Threw t).

(** The [transformQuery] calls: each hook is given the query the one before
    returned. *)
Inductive rewrites : list nat -> Query -> list Event -> Outcome Query -> Prop :=
| rewrites_end q : rewrites [] q [] (Returned q)
| rewrites_step i idx q q' evs o :
    rewrites idx q' evs o ->
    rewrites (i :: idx) q (TransformQuery i q (Returned q') :: evs) o
| rewrites_throw i idx q t :
    rewrites (i :: idx) q [TransformQuery i q (Threw t)] (Threw t).

(** A row [row] taken through the [transformRow] hooks at the positions
    [idx], one after the other, ends as [row']. *)
Fixpoint threaded (q : Query) (fs : option (list Field)) (evs : list Event)
    (idx : list nat) (row row' : Row) : Prop :=
  match idx with
  | [] => row' = row
  | i :: idx' =>
      exists mid, In (TransformRow i q row fs (Returned mid)) evs
                  /\ threaded q fs evs idx' mid row'
  end.

(** [fs] applied one after the other, the first first. *)
Definition through {A} (fs : list (A -> A)) (a : A) : A :=
  fold_left (fun a f => f a) fs a.

(** The interceptor's [transformQuery] hook, if it has one, computes [f] and
    leaves the world as it is; [f] changes nothing if it has none. *)
Definition rewrites_with (x : Interceptor) (f : Query -> Query) : Prop :=
  match transformQuery x with
  | Some hook => forall ctx q w, hook ctx q w = (Returned (f q), w)
  | None => forall q, f q = q
  end.

(** The same for [transformRow]. *)
Definition maps_with (x : Interceptor) (g : Row -> Row) : Prop :=
  match transformRow x with
  | Some hook => forall ctx q row fs w, hook ctx q row fs w = (Returned (g row), w)
  | None => forall row, g row = row
  end.

Definition is_TransformQuery (e : Event) : bool :=
  match e with TransformQuery _ _ _ => true | _ => false end.

Definition is_QueryExecutionError (e : Event) : bool :=
  match e with QueryExecutionError _ _ _ _ => true | _ => false end.

Definition is_TransformRow (e : Event) : bool :=
  match e with TransformRow _ _ _ _ _ => true | _ => false end.

(** The events of lines 110-134. *)
Definition before_execution (e : Event) : bool :=
  match e with
  | LogInfo _ | BeforeTransformQuery _ _ _ | TransformQuery _ _ _
  | BeforeQueryExecution _ _ _ => true
  | _ => false
  end.

(** The events of lines 205-237. *)
Definition after_execution (e : Event) : bool :=
  match e with
  | AfterQueryExecution _ _ _ _ | TransformRow _ _ _ _ _
  | BeforeQueryResult _ _ _ _ => true
  | _ => false
  end.

(** A [beforeQueryExecution] hook returning a result. *)
Definition short_circuits (e : Event) : bool :=
  match e with
  | BeforeQueryExecution _ _ (Returned (Some _)) => true
  | _ => false
  end.

(** A call to the execution routine, or to [connection.on] or
    [connection.off]. *)
Definition touches_driver (e : Event) : bool :=
  match e with
  | ListenerOn _ | Execute _ _ _ _ | ListenerOff _ => true
  | _ => false
  end.

(** A hook that threw. *)
Definition hook_threw (e : Event) : bool :=
  match e with
  | BeforeTransformQuery _ _ (Threw _) | TransformQuery _ _ (Threw _)
  | BeforeQueryExecution _ _ (Threw _) | QueryExecutionError _ _ _ (Threw _)
  | AfterQueryExecution _ _ _ (Threw _) | TransformRow _ _ _ _ (Threw _)
  | BeforeQueryResult _ _ _ (Threw _) => true
  | _ => false
  end.

(** A computation that leaves the connection and the closure count as they
    are and makes only calls satisfying [P]. *)
Definition confined {A} (P : Event -> Prop) (m : M A) : Prop :=
  forall s,
    connection (final (m s)) = connection s /\
    closures (final (m s)) = closures s /\
    Forall P (events (m s)).

(** Every closure attached as a listener has been made. *)
Definition listeners_made (s : St) : Prop :=
  Forall (fun l => l < closures s) (listeners (connection s)).

(** One later use of the connection: whatever the collaborators did to
    their world in between, then a call of the routine. *)
Record Invocation := {
  inv_between : W -> W;
  inv_runtime : Runtime;
  inv_configuration : ClientConfiguration;
  inv_rawSql : string;
  inv_values : list Value;
  inv_inheritedQueryId : option string;
  inv_executionRoutine : ExecutionRoutine
}.

(** The calls [calls] made one after the other from the state [s]. *)
Fixpoint invoke_all (normaliseQueryValues : list Value -> bool -> list Value)
    (calls : list Invocation) (s : St) : list (Run QueryResult) :=
  match calls with
  | [] => []
  | c :: rest =>
      let s' := {| world := inv_between c (world s); connection := connection s;
                   closures := closures s |} in
      let r := executeQuery normaliseQueryValues (inv_runtime c) (inv_configuration c)
                 (inv_rawSql c) (inv_values c) (inv_inheritedQueryId c)
                 (inv_executionRoutine c) s' in
      r :: invoke_all normaliseQueryValues rest (final r)
  end.

(** ** Vocabulary of the further properties *)

(** What the hook call recorded as [e] threw, if it threw. *)
Definition thrown (e : Event) : option Thrown :=
  match e with
  | BeforeTransformQuery _ _ (Threw t) | TransformQuery _ _ (Threw t)
  | BeforeQueryExecution _ _ (Threw t) | QueryExecutionError _ _ _ (Threw t)
  | AfterQueryExecution _ _ _ (Threw t) | TransformRow _ _ _ _ (Threw t)
  | BeforeQueryResult _ _ _ (Threw t) => Some t
  | _ => None
  end.

(** The driver's error an error object was made from. *)
Definition original_error (t : Thrown) : option DriverError :=
  match t with
  | InvalidInputError _ => None
  | Raw e | BackendTerminatedError e | StatementTimeoutError e
  | StatementCancelledError e
  | NotNullIntegrityConstraintViolationError e _
  | ForeignKeyIntegrityConstraintViolationError e _
  | UniqueIntegrityConstraintViolationError e _
  | CheckIntegrityConstraintViolationError e _ => Some e
  end.

(** A computation with no handler in it: a hook that throws ends it, with
    what the hook threw. *)
Definition strict {A} (m : M A) : Prop :=
  forall s e t,
    In e (events (m s)) -> thrown e = Some t ->
    outcome (m s) = Threw t /\ exists pre : list Event, events (m s) = (pre ++ [e])%list.

Definition is_BeforeTransformQuery (e : Event) : bool :=
  match e with BeforeTransformQuery _ _ _ => true | _ => false end.

Definition is_BeforeQueryResult (e : Event) : bool :=
  match e with BeforeQueryResult _ _ _ _ => true | _ => false end.

Definition is_BeforeQueryExecution (e : Event) : bool :=
  match e with BeforeQueryExecution _ _ _ => true | _ => false end.

(** The query a hook is handed. *)
Definition query_of (e : Event) : option Query :=
  match e with
  | BeforeTransformQuery _ q _ | TransformQuery _ q _ | BeforeQueryExecution _ q _
  | QueryExecutionError _ q _ _ | AfterQueryExecution _ q _ _
  | TransformRow _ q _ _ _ | BeforeQueryResult _ q _ _ => Some q
  | _ => None
  end.

(** The hooks called once the queries are transformed. *)
Definition after_transform (e : Event) : bool :=
  match e with
  | BeforeQueryExecution _ _ _ | QueryExecutionError _ _ _ _
  | AfterQueryExecution _ _ _ _ | TransformRow _ _ _ _ _
  | BeforeQueryResult _ _ _ _ => true
  | _ => false
  end.

End Model.

Arguments outcome {W Value Row Field Notice Any A} r.
Arguments final {W Value Row Field Notice Any A} r.
Arguments events {W Value Row Field Notice Any A} r.

Notation "x <- m ;; k" := (bind m (fun x => k))
  (at level 61, m at next level, right associativity) : js_scope.
Notation "m ;; k" := (bind m (fun _ => k))
  (at level 61, right associativity) : js_scope.

(** * A small configuration

    Concrete collaborators on which the properties below are exercised: the
    world is a journal the hooks write to; values, rows, fields and notices
    are strings. *)

Module Example.

Definition World := list string.

Definition Interceptor' := @Interceptor World string string string string unit.
Definition Routine := @ExecutionRoutine World string string string string.

(** [normaliseQueryValues] on a connection that is not native. *)
Definition normalise (vs : list string) (_ : bool) : list string := vs.

(** [transformQuery]: prefixes a comment. *)
Definition comment : Interceptor' :=
  {| beforeTransformQuery := None;
     transformQuery := Some (fun _ q w =>
       (Returned {| sql := "/* app */ " ++ sql q; values := values q |}, w));
     beforeQueryExecution := None; queryExecutionError := None;
     afterQueryExecution := None; transformRow := None;
     beforeQueryResult := None |}.

(** [transformQuery]: appends a limit. *)
Definition limit : Interceptor' :=
  {| beforeTransformQuery := None;
     transformQuery := Some (fun _ q w =>
       (Returned {| sql := sql q ++ " LIMIT 1"; values := values q |}, w));
     beforeQueryExecution := None; queryExecutionError := None;
     afterQueryExecution := None; transformRow := None;
     beforeQueryResult := None |}.

Definition cached : @QueryResult string string string :=
  {| rows := Some ["cached"]; fields := None; notices := [] |}.

(** [beforeQueryExecution]: answers from a cache. *)
Definition cache : Interceptor' :=
  {| beforeTransformQuery := None; transformQuery := None;
     beforeQueryExecution := Some (fun _ _ w => (Returned (Some cached), "hit" :: w));
     queryExecutionError := None;
     afterQueryExecution := None; transformRow := None;
     beforeQueryResult := None |}.

(** [queryExecutionError]: notes the failure in the journal. *)
Definition observer : Interceptor' :=
  {| beforeTransformQuery := None; transformQuery := None;
     beforeQueryExecution := None;
     queryExecutionError := Some (fun _ _ _ w => (Returned tt, "failure seen" :: w));
     afterQueryExecution := None; transformRow := None;
     beforeQueryResult := None |}.

Definition boom : DriverError :=
  {| code := None; message := "boom"; constraint := None |}.

(** [queryExecutionError]: throws. *)
Definition faulty : Interceptor' :=
  {| beforeTransformQuery := None; transformQuery := None;
     beforeQueryExecution := None;
     queryExecutionError := Some (fun _ _ _ w => (Threw (Raw boom), w));
     afterQueryExecution := None; transformRow := None;
     beforeQueryResult := None |}.

(** [transformRow]: appends a mark to the row. *)
Definition exclaim : Interceptor' :=
  {| beforeTransformQuery := None; transformQuery := None;
     beforeQueryExecution := None; queryExecutionError := None;
     afterQueryExecution := None;
     transformRow := Some (fun _ _ row _ w => (Returned (row ++ "!"), w));
     beforeQueryResult := None |}.

(** [transformRow]: puts the row in brackets. *)
Definition bracket : Interceptor' :=
  {| beforeTransformQuery := None; transformQuery := None;
     beforeQueryExecution := None; queryExecutionError := None;
     afterQueryExecution := None;
     transformRow := Some (fun _ _ row _ w => (Returned ("[" ++ row ++ "]"), w));
     beforeQueryResult := None |}.

Definition configuration (l : list Interceptor')
    : @ClientConfiguration World string string string string unit :=
  {| captureStackTrace := false; interceptors := l |}.

Definition two_rows : @QueryResult string string string :=
  {| rows := Some ["a"; "b"]; fields := Some ["name"]; notices := [] |}.

(** An execution routine that resolves with two rows, the driver emitting
    one notice. *)
Definition resolves : Routine :=
  fun _ _ _ _ _ w => (inr two_rows, ["notice"], w).

(** An execution routine that rejects with [error]. *)
Definition rejects (error : DriverError) : Routine :=
  fun _ _ _ _ _ w => (inl error, [], w).

(** A cancellation code on a closed transport. *)
Definition closed_transport : DriverError :=
  {| code := Some "57014"; message := "Connection terminated"; constraint := None |}.

Definition shutdown : DriverError :=
  {| code := Some "57P01";
     message := "terminating connection due to administrator command";
     constraint := None |}.

Definition duplicate : DriverError :=
  {| code := Some "23505";
     message := "duplicate key value violates unique constraint";
     constraint := Some "users_email_key" |}.

Definition runtime : Runtime :=
  {| hrtime := 1000; stack := []; freshQueryId := "query-1" |}.

(** A connection with one listener of its own. *)
Definition open_connection : Connection :=
  {| connectionId := "connection-1"; poolId := "pool-1"; transactionId := None;
     terminated := None; native := false; listeners := [0] |}.

Definition start : @St World :=
  {| world := []; connection := open_connection; closures := 1 |}.

(** The same, with the termination flag set. *)
Definition start_terminated : @St World :=
  {| world := []; connection := set_terminated open_connection shutdown;
     closures := 1 |}.

(** The runs the properties are exercised on. *)
Definition select : string := "SELECT name FROM users".

Definition select_raw : @Query string := {| sql := select; values := [] |}.

Definition select_app : @Query string :=
  {| sql := "/* app */ SELECT name FROM users LIMIT 1"; values := [] |}.

(** What the call returns when the two rows go through [exclaim], then
    [bracket]. *)
Definition marked_rows : @QueryResult string string string :=
  {| rows := Some ["[a!]"; "[b!]"]; fields := Some ["name"]; notices := ["notice"] |}.

(** Two later calls, the collaborators writing to the journal in between. *)
Definition later
    : list (@Invocation World string string string string unit) :=
  [ {| inv_between := fun w => "retry" :: w; inv_runtime := runtime;
       inv_configuration := configuration [comment; observer];
       inv_rawSql := select; inv_values := []; inv_inheritedQueryId := None;
       inv_executionRoutine := resolves |};
    {| inv_between := fun w => w; inv_runtime := runtime;
       inv_configuration := configuration [];
       inv_rawSql := "SELECT 1"; inv_values := []; inv_inheritedQueryId := Some "query-1";
       inv_executionRoutine := resolves |} ].

Definition run (l : list Interceptor') (rawSql : string) (er : Routine)
    (s : @St World) : @Run World string string string string unit QueryResult :=
  executeQuery normalise runtime (configuration l) rawSql [] None er s.

(** [beforeTransformQuery]: notes the call in the journal. *)
Definition tracer : Interceptor' :=
  {| beforeTransformQuery := Some (fun _ _ w => (Returned tt, "traced" :: w));
     transformQuery := None; beforeQueryExecution := None;
     queryExecutionError := None; afterQueryExecution := None;
     transformRow := None; beforeQueryResult := None |}.

(** [transformQuery]: throws. *)
Definition broken : Interceptor' :=
  {| beforeTransformQuery := None;
     transformQuery := Some (fun _ _ w => (Threw (Raw boom), w));
     beforeQueryExecution := None; queryExecutionError := None;
     afterQueryExecution := None; transformRow := None;
     beforeQueryResult := None |}.

(** [beforeQueryExecution]: has no result to give. *)
Definition decliner : Interceptor' :=
  {| beforeTransformQuery := None; transformQuery := None;
     beforeQueryExecution := Some (fun _ _ w => (Returned None, w));
     queryExecutionError := None; afterQueryExecution := None;
     transformRow := None; beforeQueryResult := None |}.

(** [afterQueryExecution]: notes the result in the journal. *)
Definition auditor : Interceptor' :=
  {| beforeTransformQuery := None; transformQuery := None;
     beforeQueryExecution := None; queryExecutionError := None;
     afterQueryExecution := Some (fun _ _ _ w => (Returned tt, "audited" :: w));
     transformRow := None; beforeQueryResult := None |}.

(** [beforeQueryResult]: returns. *)
Definition inspector : Interceptor' :=
  {| beforeTransformQuery := None; transformQuery := None;
     beforeQueryExecution := None; queryExecutionError := None;
     afterQueryExecution := None; transformRow := None;
     beforeQueryResult := Some (fun _ _ _ w => (Returned tt, w)) |}.

(** [beforeQueryResult]: throws. *)
Definition picky : Interceptor' :=
  {| beforeTransformQuery := None; transformQuery := None;
     beforeQueryExecution := None; queryExecutionError := None;
     afterQueryExecution := None; transformRow := None;
     beforeQueryResult := Some (fun _ _ _ w => (Threw (Raw boom), w)) |}.

(** The two rows with the notice the driver emitted. *)
Definition noticed_rows : @QueryResult string string string :=
  {| rows := Some ["a"; "b"]; fields := Some ["name"]; notices := ["notice"] |}.

Definition select_commented : @Query string :=
  {| sql := "/* app */ SELECT name FROM users"; values := [] |}.

End Example.

(** * Properties *)

Section Proofs.

Context {W Value Row Field Notice Any : Type}.

Local Abbreviation M := (@M W Value Row Field Notice Any).
Local Abbreviation St := (@St W).
Local Abbreviation Run := (@Run W Value Row Field Notice Any).
Local Abbreviation Hook := (@Hook W).
Local Abbreviation Event := (@Event Value Row Field Notice Any).
Local Abbreviation Interceptor := (@Interceptor W Value Row Field Notice Any).
Local Abbreviation ClientConfiguration := (@ClientConfiguration W Value Row Field Notice Any).
Local Abbreviation ExecutionRoutine := (@ExecutionRoutine W Value Row Field Notice).
Local Abbreviation QueryResult := (@QueryResult Row Field Notice).
Local Abbreviation Query := (@Query Value).
Local Abbreviation QueryContext := (@QueryContext Value).

Local Open Scope js_scope.
Local Open Scope list_scope.

(** ** Strings and lists *)

Lemma remove_last_snoc (l : nat) (ls : list nat) :
  remove_last l (ls ++ [l]) = ls.
Proof.
  induction ls as [|x rest IH]; simpl.
  - now rewrite Nat.eqb_refl.
  - rewrite existsb_app. simpl. rewrite Nat.eqb_refl, orb_true_r. simpl.
    now rewrite IH.
Qed.

Lemma positions_bound (p : Interceptor -> bool) (l : list Interceptor) (i : nat) :
  Forall (fun k => i <= k) (positions p i l).
Proof.
  revert i. induction l as [|x rest IH]; intro i; simpl; [constructor|].
  assert (H : Forall (fun k => i <= k) (positions p (S i) rest)).
  { eapply Forall_impl; [|apply IH]. simpl. intros; lia. }
  destruct (p x); [constructor; [lia|]|]; exact H.
Qed.

(** [positions] lists, in increasing order, the places of the interceptors
    satisfying [p]. *)
Lemma positions_spec (p : Interceptor -> bool) (l : list Interceptor) (i k : nat) :
  In k (positions p i l) <->
  exists x, nth_error l (k - i) = Some x /\ i <= k /\ p x = true.
Proof.
  revert i. induction l as [|x rest IH]; intro i; simpl.
  - split; [tauto|]. intros (x & H & _). destruct (k - i); discriminate.
  - assert (Hrest : In k (positions p (S i) rest) <->
                    exists y, nth_error (x :: rest) (k - i) = Some y /\ S i <= k /\ p y = true).
    { rewrite IH. split; intros (y & H & Hle & Hp); exists y; repeat split; auto.
      - replace (k - i) with (S (k - S i)) by lia. exact H.
      - replace (k - i) with (S (k - S i)) in H by lia. exact H. }
    destruct (p x) eqn:Hp; simpl; rewrite Hrest.
    + split.
      * intros [<- | (y & H & Hle & Hy)].
        -- exists x. rewrite Nat.sub_diag. auto.
        -- exists y. repeat split; auto; lia.
      * intros (y & H & Hle & Hy).
        destruct (Nat.eq_dec i k) as [->|Hne]; [now left|].
        right. exists y. repeat split; auto; lia.
    + split.
      * intros (y & H & Hle & Hy). exists y. repeat split; auto; lia.
      * intros (y & H & Hle & Hy).
        destruct (Nat.eq_dec i k) as [->|Hne].
        -- rewrite Nat.sub_diag in H. simpl in H. congruence.
        -- exists y. repeat split; auto; lia.
Qed.

Lemma positions_sorted (p : Interceptor -> bool) (l : list Interceptor) (i : nat) :
  StronglySorted lt (positions p i l).
Proof.
  revert i. induction l as [|x rest IH]; intro i; simpl; [constructor|].
  destruct (p x); [|apply IH].
  constructor; [apply IH|].
  eapply Forall_impl; [|apply (positions_bound p rest (S i))]. simpl. intros; lia.
Qed.

(** ** The monad *)

Lemma bind_run {A B} (m : M A) (k : A -> M B) (s : St) :
  bind m k s =
  match outcome (m s) with
  | Returned a =>
      {| outcome := outcome (k a (final (m s)));
         final := final (k a (final (m s)));
         events := events (m s) ++ events (k a (final (m s))) |}
  | Threw t => {| outcome := Threw t; final := final (m s); events := events (m s) |}
  end.
Proof. reflexivity. Qed.

Lemma call_run {A} (ev : Outcome A -> Event) (h : Hook A) (s : St) :
  call ev h s =
  {| outcome := fst (h (world s));
     final := {| world := snd (h (world s)); connection := connection s;
                 closures := closures s |};
     events := [ev (fst (h (world s)))] |}.
Proof. reflexivity. Qed.

Lemma confined_ret {A} (P : Event -> Prop) (a : A) : confined P (ret a : M A).
Proof. intro s. simpl. auto. Qed.

Lemma confined_throw {A} (P : Event -> Prop) (t : Thrown) :
  confined P (throw t : M A).
Proof. intro s. simpl. auto. Qed.

Lemma confined_emit (P : Event -> Prop) (e : Event) : P e -> confined P (emit e : M unit).
Proof. intros H s. simpl. auto. Qed.

Lemma confined_call {A} (P : Event -> Prop) (ev : Outcome A -> Event) (h : Hook A) :
  (forall o, P (ev o)) -> confined P (call ev h).
Proof.
  intros H s. unfold call. simpl. auto.
Qed.

Lemma confined_bind {A B} (P : Event -> Prop) (m : M A) (k : A -> M B) :
  confined P m -> (forall a, confined P (k a)) -> confined P (bind m k).
Proof.
  intros Hm Hk s. unfold bind.
  destruct (Hm s) as (Hc & Hn & He).
  destruct (outcome (m s)) as [a|t]; simpl; [|auto].
  destruct (Hk a (final (m s))) as (Hc' & Hn' & He').
  repeat split; [congruence|congruence|]. apply Forall_app; auto.
Qed.

Lemma confined_forOf {A} (P : Event -> Prop)
    (body : nat -> Interceptor -> A -> M A) (l : list Interceptor) :
  (forall i x a, confined P (body i x a)) ->
  forall i a, confined P (forOf body i l a).
Proof.
  intro H. induction l as [|x rest IH]; intros i a; simpl.
  - apply confined_ret.
  - apply confined_bind; auto.
Qed.

Lemma confined_mapM {A B} (P : Event -> Prop) (f : A -> M B) (xs : list A) :
  (forall x, confined P (f x)) -> confined P (mapM f xs).
Proof.
  intro H. induction xs as [|x rest IH]; simpl.
  - apply confined_ret.
  - apply confined_bind; auto. intro y.
    apply confined_bind; auto. intro ys. apply confined_ret.
Qed.

(** A loop calling, for its effect, the hook [sel] finds in each interceptor
    makes the calls [sequence] describes. *)
Lemma forOf_sequence (sel : Interceptor -> option (Hook Any))
    (ev : nat -> Outcome Any -> Event)
    (body : nat -> Interceptor -> unit -> M unit) (p : Interceptor -> bool) :
  (forall i x u, body i x u =
     match sel x with
     | Some h => _ <- call (ev i) h ;; ret tt
     | None => ret tt
     end) ->
  (forall x, p x = has (sel x)) ->
  forall l i s,
    sequence ev (positions p i l) (events (forOf body i l tt s))
             (outcome (forOf body i l tt s)).
Proof.
  intros Hbody Hp. induction l as [|x rest IH]; intros i s; simpl.
  - constructor.
  - rewrite Hp. unfold bind at 1. rewrite Hbody.
    destruct (sel x) as [h|]; simpl.
    + unfold bind, call; simpl. destruct (h (world s)) as [[a|t] w]; simpl.
      * apply sequence_step. apply IH.
      * apply sequence_throw.
    + apply IH.
Qed.

(** The [transformQuery] loop hands each hook the query the one before
    returned. *)
Lemma forOf_rewrites (ctx : QueryContext) (l : list Interceptor) :
  forall i q (s : St),
    rewrites (positions (fun x => has (transformQuery x)) i l) q
             (events (forOf (transformQuery_body ctx) i l q s))
             (outcome (forOf (transformQuery_body ctx) i l q s)).
Proof.
  induction l as [|x rest IH]; intros i q s; simpl.
  - constructor.
  - unfold bind. unfold transformQuery_body in *.
    destruct (transformQuery x) as [h|]; simpl.
    + unfold call; simpl. destruct (h ctx q (world s)) as [[q'|t] w]; simpl.
      * apply rewrites_step. apply IH.
      * apply rewrites_throw.
    + apply IH.
Qed.

(** With hooks that are functions, the loop returns their composition. *)
Lemma transformQuery_pure (ctx : QueryContext) (l : list Interceptor)
    (fs : list (Query -> Query)) :
  Forall2 rewrites_with l fs ->
  forall i q (s : St),
    outcome (forOf (transformQuery_body ctx) i l q s) = Returned (through fs q).
Proof.
  induction 1 as [|x f rest fs' Hx _ IH]; intros i q s; cbn [forOf].
  - reflexivity.
  - rewrite bind_run. unfold transformQuery_body at 1 2 3. unfold rewrites_with in Hx.
    destruct (transformQuery x) as [h|].
    + rewrite call_run, Hx. cbn [outcome final fst snd]. apply IH.
    + cbn [ret outcome final]. rewrite IH. unfold through. simpl. now rewrite Hx.
Qed.

Ltac confine :=
  repeat first
    [ apply confined_ret | apply confined_throw
    | apply confined_emit | apply confined_call
    | apply confined_forOf | apply confined_mapM | apply confined_bind
    | progress intros
    | reflexivity ].

Lemma beforeTransformQuery_confined (P : Event -> Prop) (ctx : QueryContext) (q : Query) :
  (forall i out, P (BeforeTransformQuery i q out)) ->
  forall l i u, confined P (forOf (beforeTransformQuery_body ctx q) i l u : M unit).
Proof.
  intros H l. apply confined_forOf. intros i x a.
  unfold beforeTransformQuery_body. destruct (beforeTransformQuery x); confine; auto.
Qed.

Lemma transformQuery_confined (P : Event -> Prop) (ctx : QueryContext) :
  (forall i q out, P (TransformQuery i q out)) ->
  forall l i q, confined P (forOf (transformQuery_body ctx) i l q : M Query).
Proof.
  intros H l. apply confined_forOf. intros i x a.
  unfold transformQuery_body. destruct (transformQuery x); confine; auto.
Qed.

Lemma beforeQueryExecution_confined (P : Event -> Prop) (ctx : QueryContext) (q : Query) :
  (forall i out, P (BeforeQueryExecution i q out)) ->
  (forall msg, P (LogInfo msg)) ->
  forall l i, confined P (beforeQueryExecution_loop ctx q i l : M (option QueryResult)).
Proof.
  intros H Hlog. induction l as [|x rest IH]; intro i; simpl.
  - confine.
  - destruct (beforeQueryExecution x); [|apply IH].
    apply confined_bind; [confine; auto|].
    intros [r|]; [confine; auto|apply IH].
Qed.

Lemma queryExecutionError_confined (P : Event -> Prop) (ctx : QueryContext)
    (q : Query) (error : Thrown) :
  (forall i out, P (QueryExecutionError i q error out)) ->
  forall l i u, confined P (forOf (queryExecutionError_body ctx q error) i l u : M unit).
Proof.
  intros H l. apply confined_forOf. intros i x a.
  unfold queryExecutionError_body. destruct (queryExecutionError x); confine; auto.
Qed.

Lemma afterQueryExecution_confined (P : Event -> Prop) (ctx : QueryContext)
    (q : Query) (result : QueryResult) :
  (forall i out, P (AfterQueryExecution i q result out)) ->
  forall l i u, confined P (forOf (afterQueryExecution_body ctx q result) i l u : M unit).
Proof.
  intros H l. apply confined_forOf. intros i x a.
  unfold afterQueryExecution_body. destruct (afterQueryExecution x); confine; auto.
Qed.

Lemma transformRow_confined (P : Event -> Prop) (ctx : QueryContext) (q : Query) :
  (forall i row fs out, P (TransformRow i q row fs out)) ->
  forall l i result, confined P (forOf (transformRow_body ctx q) i l result : M QueryResult).
Proof.
  intros H l. apply confined_forOf. intros i x a.
  unfold transformRow_body. destruct (transformRow x); [|confine].
  destruct (rows a); confine; auto.
Qed.

Lemma beforeQueryResult_confined (P : Event -> Prop) (ctx : QueryContext)
    (q : Query) (result : QueryResult) :
  (forall i out, P (BeforeQueryResult i q result out)) ->
  forall l i u, confined P (forOf (beforeQueryResult_body ctx q result) i l u : M unit).
Proof.
  intros H l. apply confined_forOf. intros i x a.
  unfold beforeQueryResult_body. destruct (beforeQueryResult x); confine; auto.
Qed.

(** The inner [catch] block throws what the table gives, sets the
    termination flag on a termination error and on no other, and logs. *)
Lemma classifyError_run {A} (error : DriverError) (s : St) :
  (classifyError error : M A) s =
  {| outcome := Threw (classification error);
     final := if is_termination error
              then {| world := world s;
                      connection := set_terminated (connection s) error;
                      closures := closures s |}
              else s;
     events := [LogError error msg_execution_error] |}.
Proof.
  unfold classifyError, classification, classification_table, is_termination.
  unfold bind; simpl.
  destruct (code_is error "57P01" || (message error =? "Connection terminated"));
    simpl; [reflexivity|].
  unfold is_timeout.
  destruct (code_is error "57014"); simpl.
  - destruct (includes (message error) _); reflexivity.
  - destruct (code_is error "23502"); [reflexivity|].
    destruct (code_is error "23503"); [reflexivity|].
    destruct (code_is error "23505"); [reflexivity|].
    destruct (code_is error "23514"); reflexivity.
Qed.

Lemma queryExecutionError_sequence (ctx : QueryContext) (q : Query) (error : Thrown)
    (l : list Interceptor) (i : nat) (s : St) :
  sequence (fun k => QueryExecutionError k q error)
           (positions (fun x => has (queryExecutionError x)) i l)
           (events (forOf (queryExecutionError_body ctx q error) i l tt s))
           (outcome (forOf (queryExecutionError_body ctx q error) i l tt s)).
Proof.
  apply forOf_sequence
    with (sel := fun x => option_map (fun h => h ctx q error) (queryExecutionError x)).
  - intros k x u. unfold queryExecutionError_body.
    destruct (queryExecutionError x); reflexivity.
  - intro x. destruct (queryExecutionError x); reflexivity.
Qed.

Section Attempt.

Variable normaliseQueryValues : list Value -> bool -> list Value.
Variable cfg : ClientConfiguration.
Variable ctx : QueryContext.
Variable er : ExecutionRoutine.
Variable l : nat.
Variable q : Query.
Variable s : St.

Let conn := connection s.
Let text := sql q.
Let vals := normaliseQueryValues (values q) (native conn).

(** The execution routine resolves: the listener is removed and the result
    is returned with the notices. *)
Lemma attempt_resolved (raw : QueryResult) (emitted : list Notice) (w : W) :
  er conn text vals ctx q (world s) = (inr raw, emitted, w) ->
  attempt normaliseQueryValues cfg ctx er l q s =
  {| outcome := Returned (raw, if existsb (Nat.eqb l) (listeners conn)
                               then emitted else []);
     final := {| world := w;
                 connection := set_listeners conn (remove_last l (listeners conn));
                 closures := closures s |};
     events := [Execute text vals q (inr raw); ListenerOff l] |}.
Proof.
  subst conn text vals. intro H.
  unfold attempt, try_catch, try_finally, bind, await_executionRoutine.
  cbv beta zeta. rewrite !H. reflexivity.
Qed.

(** The execution routine rejects: the error is logged and classified, the
    listener is removed, then the [queryExecutionError] hooks are called with
    the classified error, which is thrown unless one of them throws. *)
Lemma attempt_rejected (error : DriverError) (emitted : list Notice) (w : W) :
  er conn text vals ctx q (world s) = (inl error, emitted, w) ->
  let conn' := if is_termination error then set_terminated conn error else conn in
  let s' := {| world := w;
               connection := set_listeners conn' (remove_last l (listeners conn));
               closures := closures s |} in
  let rh := forOf (queryExecutionError_body ctx q (classification error)) 0
                  (interceptors cfg) tt s' in
  attempt normaliseQueryValues cfg ctx er l q s =
  {| outcome := match outcome rh with
                | Returned _ => Threw (classification error)
                | Threw t => Threw t
                end;
     final := final rh;
     events := [Execute text vals q (inl error);
                LogError error msg_execution_error;
                ListenerOff l] ++ events rh |}.
Proof.
  subst conn text vals. intro H. cbv zeta.
  unfold attempt.
  match goal with
  | |- try_catch (try_finally ?m _) _ _ = _ => set (inner := m)
  end.
  assert (Hi : inner s =
               {| outcome := Threw (classification error);
                  final := if is_termination error
                           then {| world := w;
                                   connection := set_terminated (connection s) error;
                                   closures := closures s |}
                           else {| world := w; connection := connection s;
                                   closures := closures s |};
                  events := [Execute (sql q)
                               (normaliseQueryValues (values q) (native (connection s)))
                               q (inl error);
                             LogError error msg_execution_error] |}).
  { unfold inner, bind, await_executionRoutine. cbv beta zeta. rewrite !H.
    cbn [outcome final events fst snd]. rewrite classifyError_run. simpl.
    destruct (is_termination error); reflexivity. }
  unfold try_catch, try_finally. cbv beta zeta. rewrite !Hi.
  destruct (is_termination error); simpl;
    unfold bind; cbv beta zeta;
    match goal with
    | |- context [forOf ?b 0 ?xs tt ?s0] => set (rh := forOf b 0 xs tt s0)
    end; destruct (outcome rh); simpl; rewrite ?app_nil_r; reflexivity.
Qed.

End Attempt.

(** ** The hooks before the execution *)

Lemma filter_none {A} (f : A -> bool) (l : list A) :
  Forall (fun x => f x = false) l -> filter f l = [].
Proof.
  induction 1 as [|x rest Hx _ IH]; simpl; [reflexivity|]. now rewrite Hx.
Qed.

Lemma filter_all {A} (f : A -> bool) (l : list A) :
  Forall (fun x => f x = true) l -> filter f l = l.
Proof.
  induction 1 as [|x rest Hx _ IH]; simpl; [reflexivity|]. now rewrite Hx, IH.
Qed.

Lemma prepare_confined (P : Event -> Prop) (cfg : ClientConfiguration)
    (ctx : QueryContext) (original : Query) :
  (forall e, before_execution e = true -> P e) ->
  confined P (prepare cfg ctx original).
Proof.
  intro H. unfold prepare.
  apply confined_bind.
  { apply beforeTransformQuery_confined. intros; apply H; reflexivity. }
  intros _. apply confined_bind.
  { apply transformQuery_confined. intros; apply H; reflexivity. }
  intro q. apply confined_bind; [|confine].
  apply beforeQueryExecution_confined; intros; apply H; reflexivity.
Qed.

(** The [beforeQueryExecution] loop stops at the first hook that returns a
    result, and logs that it does. *)
Lemma beforeQueryExecution_loop_short (ctx : QueryContext) (q : Query)
    (l : list Interceptor) :
  forall i (s : St),
    let r := beforeQueryExecution_loop ctx q i l s in
    match outcome r with
    | Returned (Some res) =>
        exists pre k,
          events r = pre ++ [BeforeQueryExecution k q (Returned (Some res));
                             LogInfo msg_short_circuit] /\
          Forall (fun e => short_circuits e = false) pre
    | _ => Forall (fun e => short_circuits e = false) (events r)
    end.
Proof.
  induction l as [|x rest IH]; intros i s; cbv zeta;
    cbn [beforeQueryExecution_loop].
  - constructor.
  - destruct (beforeQueryExecution x) as [h|]; [|apply IH].
    rewrite bind_run, call_run. cbn [outcome final events].
    destruct (h ctx q (world s)) as [[[res|]|t] w]; cbn [fst snd].
    + simpl. exists [], i. split; [reflexivity|constructor].
    + specialize (IH (S i) {| world := w; connection := connection s;
                              closures := closures s |}).
      cbv zeta in IH. cbn [outcome final events].
      destruct (outcome (beforeQueryExecution_loop ctx q (S i) rest _))
        as [[res|]|t].
      * destruct IH as (pre & k & -> & Hpre).
        exists (BeforeQueryExecution i q (Returned None) :: pre), k.
        split; [reflexivity|]. constructor; [reflexivity|exact Hpre].
      * constructor; [reflexivity|exact IH].
      * constructor; [reflexivity|exact IH].
    + simpl. constructor; [reflexivity|constructor].
Qed.

Section Prepare.

Variable cfg : ClientConfiguration.
Variable ctx : QueryContext.
Variable original : Query.
Variable s : St.

Let r1 := forOf (beforeTransformQuery_body ctx original) 0 (interceptors cfg) tt s.
Let r2 := forOf (transformQuery_body ctx) 0 (interceptors cfg) original (final r1).

(** [prepare], one loop after the other. *)
Lemma prepare_run :
  prepare cfg ctx original s =
  match outcome r1 with
  | Threw t => {| outcome := Threw t; final := final r1; events := events r1 |}
  | Returned _ =>
      match outcome r2 with
      | Threw t => {| outcome := Threw t; final := final r2;
                      events := events r1 ++ events r2 |}
      | Returned q =>
          let r3 := beforeQueryExecution_loop ctx q 0 (interceptors cfg) (final r2) in
          {| outcome := match outcome r3 with
                        | Returned short => Returned (q, short)
                        | Threw t => Threw t
                        end;
             final := final r3;
             events := events r1 ++ events r2 ++ events r3 |}
      end
  end.
Proof.
  unfold prepare. rewrite bind_run. fold r1.
  destruct (outcome r1) as [[]|t]; [|reflexivity].
  rewrite bind_run. fold r2.
  destruct (outcome r2) as [q|t]; [|reflexivity].
  rewrite bind_run. cbv zeta.
  destruct (outcome (beforeQueryExecution_loop ctx q 0 (interceptors cfg) (final r2)));
    simpl; rewrite ?app_nil_r; reflexivity.
Qed.

Lemma r1_events :
  Forall (fun e => is_TransformQuery e = false /\ short_circuits e = false) (events r1).
Proof.
  apply (beforeTransformQuery_confined
           (fun e => is_TransformQuery e = false /\ short_circuits e = false)).
  intros; split; reflexivity.
Qed.

Lemma r2_events :
  Forall (fun e => is_TransformQuery e = true /\ short_circuits e = false) (events r2).
Proof.
  apply (transformQuery_confined
           (fun e => is_TransformQuery e = true /\ short_circuits e = false)).
  intros; split; reflexivity.
Qed.

Lemma r3_events (q : Query) (s' : St) :
  Forall (fun e => is_TransformQuery e = false)
         (events (beforeQueryExecution_loop ctx q 0 (interceptors cfg) s')).
Proof.
  apply (beforeQueryExecution_confined (fun e => is_TransformQuery e = false));
    intros; reflexivity.
Qed.

(** The [transformQuery] calls of [prepare]: none, or a chain from the
    original query; a chain ending in the query to execute when [prepare]
    returns. *)
Lemma prepare_rewrites :
  let r0 := prepare cfg ctx original s in
  let tq := filter is_TransformQuery (events r0) in
  let idx := positions (fun x => has (transformQuery x)) 0 (interceptors cfg) in
  (tq = [] \/ exists o, rewrites idx original tq o) /\
  (forall q short, outcome r0 = Returned (q, short) ->
                   rewrites idx original tq (Returned q)).
Proof.
  cbv zeta. rewrite prepare_run.
  assert (H1 : filter is_TransformQuery (events r1) = []).
  { apply filter_none. eapply Forall_impl; [|apply r1_events]. simpl; tauto. }
  assert (H2 : filter is_TransformQuery (events r2) = events r2).
  { apply filter_all. eapply Forall_impl; [|apply r2_events]. simpl; tauto. }
  pose proof (forOf_rewrites ctx (interceptors cfg) 0 original (final r1)) as Hrw.
  fold r2 in Hrw.
  destruct (outcome r1) as [[]|t]; cbn [outcome events].
  2:{ rewrite H1. split; [now left|discriminate]. }
  destruct (outcome r2) as [q|t] eqn:E2; cbn [outcome events].
  - cbv zeta. cbn [outcome events].
    rewrite !filter_app, H1, H2, (filter_none _ _ (r3_events q (final r2))).
    rewrite app_nil_r. simpl. split; [right; eauto|].
    intros q' short Hq.
    destruct (outcome (beforeQueryExecution_loop ctx q 0 (interceptors cfg) (final r2)));
      [|discriminate].
    now inversion Hq; subst.
  - rewrite !filter_app, H1, H2. simpl. split; [right; eauto|discriminate].
Qed.

(** With [transformQuery] hooks that are functions, the query [prepare]
    returns is their composition applied to the original. *)
Lemma prepare_query (fs : list (Query -> Query)) q short :
  Forall2 rewrites_with (interceptors cfg) fs ->
  outcome (prepare cfg ctx original s) = Returned (q, short) ->
  q = through fs original.
Proof.
  intro Hfs. rewrite prepare_run.
  pose proof (transformQuery_pure ctx (interceptors cfg) fs Hfs 0 original (final r1))
    as H2. fold r2 in H2.
  destruct (outcome r1) as [[]|t]; [|discriminate].
  rewrite H2. cbv zeta. cbn [outcome].
  destruct (outcome (beforeQueryExecution_loop ctx _ 0 (interceptors cfg) (final r2)));
    intro H; inversion H; reflexivity.
Qed.

(** A [beforeQueryExecution] hook returns a result in a run of [prepare]
    exactly when [prepare] returns that result, and it is then the last
    call. *)
Lemma prepare_short :
  let r0 := prepare cfg ctx original s in
  match outcome r0 with
  | Returned (q, Some res) =>
      exists pre k,
        events r0 = pre ++ [BeforeQueryExecution k q (Returned (Some res));
                            LogInfo msg_short_circuit] /\
        Forall (fun e => short_circuits e = false) pre
  | _ => Forall (fun e => short_circuits e = false) (events r0)
  end.
Proof.
  cbv zeta. rewrite prepare_run.
  assert (H1 : Forall (fun e => short_circuits e = false) (events r1)).
  { eapply Forall_impl; [|apply r1_events]. simpl; tauto. }
  assert (H2 : Forall (fun e => short_circuits e = false) (events r2)).
  { eapply Forall_impl; [|apply r2_events]. simpl; tauto. }
  destruct (outcome r1) as [[]|t]; cbn [outcome events]; [|exact H1].
  destruct (outcome r2) as [q|t]; cbn [outcome events].
  2:{ apply Forall_app; auto. }
  cbv zeta. cbn [outcome events].
  pose proof (beforeQueryExecution_loop_short ctx q (interceptors cfg) 0 (final r2)) as H3.
  cbv zeta in H3.
  destruct (outcome (beforeQueryExecution_loop ctx q 0 (interceptors cfg) (final r2)))
    as [[res|]|t].
  - destruct H3 as (pre & k & -> & Hpre).
    exists (events r1 ++ events r2 ++ pre), k. split.
    + now rewrite <- !app_assoc.
    + repeat (apply Forall_app; split); auto.
  - repeat (apply Forall_app; split); auto.
  - repeat (apply Forall_app; split); auto.
Qed.

End Prepare.

(** ** The whole pipeline *)

(** Lines 136-142: a new closure is attached, then the rest runs. *)
Lemma listener_block {A} (k : nat -> M A) (s : St) :
  (l <- new_closure ;; on l ;; k l) s =
  let l := closures s in
  let s' := {| world := world s;
               connection := set_listeners (connection s)
                                           (listeners (connection s) ++ [l]);
               closures := S (closures s) |} in
  {| outcome := outcome (k l s'); final := final (k l s');
     events := ListenerOn l :: events (k l s') |}.
Proof. reflexivity. Qed.

Lemma detach_attached (c : Connection) (l : nat) :
  set_listeners (set_listeners c (listeners c ++ [l]))
                (remove_last l (listeners (set_listeners c (listeners c ++ [l])))) = c.
Proof. destruct c; unfold set_listeners; simpl. now rewrite remove_last_snoc. Qed.

Lemma detach_attached_terminated (c : Connection) (l : nat) (error : DriverError) :
  set_listeners (set_terminated (set_listeners c (listeners c ++ [l])) error)
                (remove_last l (listeners (set_listeners c (listeners c ++ [l]))))
  = set_terminated c error.
Proof.
  destruct c; unfold set_listeners, set_terminated; simpl.
  now rewrite remove_last_snoc.
Qed.

Section Pipeline.

Variable normaliseQueryValues : list Value -> bool -> list Value.
Variable cfg : ClientConfiguration.
Variable ctx : QueryContext.
Variable er : ExecutionRoutine.
Variable original : Query.
Variable s : St.

Let r0 := prepare cfg ctx original s.
Let r := pipeline normaliseQueryValues cfg ctx er original s.
Let l := closures s.

(** The four ways a run of the pipeline goes: a hook before the execution
    throws; a [beforeQueryExecution] hook returns a result; the execution
    routine rejects; the execution routine resolves. *)
Lemma pipeline_cases :
  (exists t, outcome r0 = Threw t /\
             r = {| outcome := Threw t; final := final r0; events := events r0 |})
  \/
  (exists q res, outcome r0 = Returned (q, Some res) /\
                 r = {| outcome := Returned res; final := final r0;
                        events := events r0 |})
  \/
  (exists q error post o,
      outcome r0 = Returned (q, None) /\
      events r = events r0 ++
                 [ListenerOn l;
                  Execute (sql q)
                          (normaliseQueryValues (values q) (native (connection s)))
                          q (inl error);
                  LogError error msg_execution_error;
                  ListenerOff l] ++ post /\
      sequence (fun k => QueryExecutionError k q (classification error))
               (positions (fun x => has (queryExecutionError x)) 0 (interceptors cfg))
               post o /\
      outcome r = Threw (match o with
                         | Returned _ => classification error
                         | Threw t => t
                         end) /\
      connection (final r) = (if is_termination error
                              then set_terminated (connection s) error
                              else connection s) /\
      closures (final r) = S (closures s))
  \/
  (exists q raw collected s',
      outcome r0 = Returned (q, None) /\
      connection s' = connection s /\
      closures s' = S (closures s) /\
      let rc := complete cfg ctx q (raw, collected) s' in
      events r = events r0 ++
                 [ListenerOn l;
                  Execute (sql q)
                          (normaliseQueryValues (values q) (native (connection s)))
                          q (inr raw);
                  ListenerOff l] ++ events rc /\
      outcome r = outcome rc /\
      final r = final rc).
Proof.
  destruct (prepare_confined (fun _ => True) cfg ctx original (fun _ _ => I) s)
    as (Hc & Hn & _). fold r0 in Hc, Hn.
  subst r l. unfold pipeline. rewrite bind_run. fold r0.
  destruct (outcome r0) as [[q [res|]]|t] eqn:E0; cbn [fst snd].
  - right; left. exists q, res. split; [reflexivity|]. simpl. now rewrite app_nil_r.
  - right; right. rewrite listener_block. cbv zeta. rewrite Hc, Hn.
    cbn [outcome final events]. rewrite bind_run.
    set (s1 := {| world := world (final r0);
                  connection := set_listeners (connection s)
                                  (listeners (connection s) ++ [closures s]);
                  closures := S (closures s) |}).
    destruct (er (connection s1) (sql q)
                 (normaliseQueryValues (values q) (native (connection s1)))
                 ctx q (world s1)) as [[[error|raw] emitted] w] eqn:E.
    + left.
      pose proof (attempt_rejected normaliseQueryValues cfg ctx er (closures s) q s1
                    error emitted w E) as Ha.
      cbv zeta in Ha. rewrite Ha. clear Ha. cbn [outcome final events].
      match goal with
      | |- context [forOf ?b 0 ?xs tt ?s0] => set (rh := forOf b 0 xs tt s0)
      end.
      pose proof (queryExecutionError_sequence ctx q (classification error)
                    (interceptors cfg) 0) as Hseq.
      pose proof (queryExecutionError_confined (fun _ => True) ctx q
                    (classification error) (fun _ _ => I) (interceptors cfg) 0 tt) as Hq.
      match goal with
      | rh := forOf _ 0 _ tt ?s0 |- _ =>
          specialize (Hseq s0); destruct (Hq s0) as (Hqc & Hqn & _)
      end.
      fold rh in Hseq, Hqc, Hqn.
      exists q, error, (events rh), (outcome rh).
      split; [reflexivity|].
      split; [destruct (outcome rh); reflexivity|].
      split; [exact Hseq|].
      split; [destruct (outcome rh); reflexivity|].
      split.
      * destruct (outcome rh); cbn [final]; rewrite Hqc; cbn [connection];
          unfold s1; cbn [connection];
          destruct (is_termination error);
          auto using detach_attached, detach_attached_terminated.
      * destruct (outcome rh); cbn [final]; rewrite Hqn; reflexivity.
    + right.
      pose proof (attempt_resolved normaliseQueryValues cfg ctx er (closures s) q s1
                    raw emitted w E) as Ha.
      rewrite Ha. clear Ha. cbn [outcome final events].
      match goal with
      | |- context [complete cfg ctx q ?st ?s0] =>
          exists q, raw, (snd st), s0
      end.
      cbn [snd connection closures]. unfold s1; cbn [connection].
      split; [reflexivity|].
      split; [apply detach_attached|].
      split; [reflexivity|].
      cbv zeta.
      match goal with
      | |- context [complete cfg ctx q ?st ?s0] => set (rc := complete cfg ctx q st s0)
      end.
      split; [|split].
      * destruct (outcome rc); reflexivity.
      * destruct (outcome rc); reflexivity.
      * destruct (outcome rc); reflexivity.
  - left. exists t. split; reflexivity.
Qed.

End Pipeline.

Lemma sequence_Forall (P : Event -> Prop) (ev : nat -> Outcome Any -> Event)
    idx evs o :
  (forall k out, P (ev k out)) -> sequence ev idx evs o -> Forall P evs.
Proof. intro H. induction 1; repeat constructor; auto. Qed.

Lemma run_eta {A} (r : Run A) :
  r = {| outcome := outcome r; final := final r; events := events r |}.
Proof. destruct r; reflexivity. Qed.

Lemma complete_confined (P : Event -> Prop) (cfg : ClientConfiguration)
    (ctx : QueryContext) (q : Query) (settled : QueryResult * list Notice) :
  (forall e, after_execution e = true -> P e) ->
  confined P (complete cfg ctx q settled).
Proof.
  intro H. unfold complete.
  apply confined_bind.
  { apply afterQueryExecution_confined. intros; apply H; reflexivity. }
  intros _. apply confined_bind.
  { cbn [rows]. destruct (rows (fst settled)); [|confine].
    apply transformRow_confined. intros; apply H; reflexivity. }
  intro result. apply confined_bind; [|confine].
  apply beforeQueryResult_confined. intros; apply H; reflexivity.
Qed.

(** ** Sequences of hook calls *)

Section Sequence.

Variable ev : nat -> Outcome Any -> Event.
Hypothesis ev_inj : forall k out k' out', ev k out = ev k' out' -> k = k' /\ out = out'.

Lemma sequence_In idx evs o :
  sequence ev idx evs o ->
  forall e, In e evs -> exists k out, e = ev k out /\ In k idx.
Proof.
  induction 1 as [|i idx a evs o _ IH|i idx t]; intros e Hin.
  - destruct Hin.
  - destruct Hin as [<-|Hin].
    + exists i, (Returned a). split; [reflexivity|now left].
    + destruct (IH e Hin) as (k & out & -> & Hk). exists k, out. split; [reflexivity|now right].
  - destruct Hin as [<-|[]]. exists i, (Threw t). split; [reflexivity|now left].
Qed.

(** A hook that throws is the last one called, what it throws is the
    outcome, and the hooks called are those registered no later than it. *)
Lemma sequence_thrown_last idx evs o :
  sequence ev idx evs o ->
  StronglySorted lt idx ->
  forall k t,
    In (ev k (Threw t)) evs ->
    o = Threw t /\
    (exists pre, evs = pre ++ [ev k (Threw t)]) /\
    (forall k' out', In (ev k' out') evs -> k' <= k).
Proof.
  induction 1 as [|i idx a evs o Hseq IH|i idx t0]; intros Hsorted k t Hin.
  - destruct Hin.
  - inversion Hsorted as [|? ? Htail Hhead]; subst.
    destruct Hin as [Heq|Hin].
    { apply ev_inj in Heq. destruct Heq; discriminate. }
    destruct (IH Htail k t Hin) as (-> & (pre & ->) & Hle).
    split; [reflexivity|]. split; [exists (ev i (Returned a) :: pre); reflexivity|].
    intros k' out' [Heq|Hin'].
    + apply ev_inj in Heq. destruct Heq as [<- _].
      destruct (sequence_In _ _ _ Hseq _ Hin) as (k0 & out0 & Heq & Hk0).
      apply ev_inj in Heq. destruct Heq as [<- _].
      rewrite Forall_forall in Hhead. apply Hhead in Hk0. lia.
    + exact (Hle k' out' Hin').
  - destruct Hin as [Heq|[]]. apply ev_inj in Heq. destruct Heq as [<- Ht].
    inversion Ht; subst. split; [reflexivity|]. split; [now exists []|].
    intros k' out' [Heq|[]]. apply ev_inj in Heq. destruct Heq as [<- _]. lia.
Qed.

(** When no hook throws, the sequence returns. *)
Lemma sequence_returns idx evs o :
  sequence ev idx evs o ->
  (forall k t, hook_threw (ev k (Threw t)) = true) ->
  Forall (fun e => hook_threw e = false) evs ->
  o = Returned tt.
Proof.
  intros Hseq Hthrew. induction Hseq as [|i idx a evs o _ IH|i idx t]; intro Hall.
  - reflexivity.
  - inversion Hall; subst. auto.
  - inversion Hall as [|? ? Hhead _]; subst. rewrite Hthrew in Hhead. discriminate.
Qed.

End Sequence.

(** ** The classification *)

Lemma code_is_other (error : DriverError) (a b : string) :
  code_is error a = true -> a <> b -> code_is error b = false.
Proof.
  unfold code_is. destruct (code error) as [c|]; [|discriminate].
  intros Ha Hne. apply String.eqb_eq in Ha. subst c. now apply String.eqb_neq.
Qed.

Lemma classification_termination (error : DriverError) :
  is_termination error = true -> classification error = BackendTerminatedError error.
Proof.
  intro H. unfold classification, classification_table. cbn [find fst snd].
  now rewrite H.
Qed.

(** The rows of the table, each with what makes it the first to match. *)
Lemma classification_rows (error : DriverError) :
  let t := classification error in
  (is_termination error = true -> t = BackendTerminatedError error) /\
  (is_termination error = false ->
   (code_is error "57014" = true -> is_timeout error = true ->
    t = StatementTimeoutError error) /\
   (code_is error "57014" = true -> is_timeout error = false ->
    t = StatementCancelledError error) /\
   (code_is error "23502" = true ->
    t = NotNullIntegrityConstraintViolationError error (constraint error)) /\
   (code_is error "23503" = true ->
    t = ForeignKeyIntegrityConstraintViolationError error (constraint error)) /\
   (code_is error "23505" = true ->
    t = UniqueIntegrityConstraintViolationError error (constraint error)) /\
   (code_is error "23514" = true ->
    t = CheckIntegrityConstraintViolationError error (constraint error)) /\
   (code_is error "57014" = false -> code_is error "23502" = false ->
    code_is error "23503" = false -> code_is error "23505" = false ->
    code_is error "23514" = false -> t = Raw error)).
Proof.
  cbv zeta. split; [apply classification_termination|].
  intro Hterm. unfold classification, classification_table. cbn [find fst snd].
  rewrite Hterm.
  repeat split.
  - intros H1 H2. now rewrite H1, H2.
  - intros H1 H2. now rewrite H1, H2.
  - intro H. rewrite (code_is_other error "23502" "57014" H) by discriminate.
    now rewrite H.
  - intro H. rewrite (code_is_other error "23503" "57014" H) by discriminate.
    rewrite (code_is_other error "23503" "23502" H) by discriminate.
    now rewrite H.
  - intro H. rewrite (code_is_other error "23505" "57014" H) by discriminate.
    rewrite (code_is_other error "23505" "23502" H) by discriminate.
    rewrite (code_is_other error "23505" "23503" H) by discriminate.
    now rewrite H.
  - intro H. rewrite (code_is_other error "23514" "57014" H) by discriminate.
    rewrite (code_is_other error "23514" "23502" H) by discriminate.
    rewrite (code_is_other error "23514" "23503" H) by discriminate.
    rewrite (code_is_other error "23514" "23505" H) by discriminate.
    now rewrite H.
  - intros H1 H2 H3 H4 H5. now rewrite H1, H2, H3, H4, H5.
Qed.

(** ** A terminated connection *)

Lemma executeQuery_terminated
    (normaliseQueryValues : list Value -> bool -> list Value) (rt : Runtime)
    (cfg : ClientConfiguration) (rawSql : string) (vals : list Value)
    (inheritedQueryId : option string) (er : ExecutionRoutine) (s : St)
    (cause : DriverError) :
  terminated (connection s) = Some cause ->
  executeQuery normaliseQueryValues rt cfg rawSql vals inheritedQueryId er s =
  {| outcome := Threw (BackendTerminatedError cause); final := s; events := [] |}.
Proof.
  intro H. unfold executeQuery. rewrite bind_run.
  cbn [get_connection outcome final events]. now rewrite H.
Qed.

(** Whatever calls follow on a connection whose flag is set, each fails
    with the stored cause and calls nothing. *)
Lemma invoke_all_terminated
    (normaliseQueryValues : list Value -> bool -> list Value)
    (calls : list Invocation) :
  forall (s : St) cause,
    terminated (connection s) = Some cause ->
    Forall (fun r' : Run QueryResult =>
              outcome r' = Threw (BackendTerminatedError cause) /\
              events r' = [] /\
              terminated (connection (final r')) = Some cause)
           (invoke_all normaliseQueryValues calls s).
Proof.
  induction calls as [|c rest IH]; intros s cause H; cbn [invoke_all].
  - constructor.
  - cbv zeta.
    rewrite (executeQuery_terminated _ _ _ _ _ _ _ _ cause) by exact H.
    constructor; [auto|]. cbn [final]. apply IH. exact H.
Qed.

(** ** The rows *)

Lemma threaded_incl (q : Query) (fs : option (list Field)) (evs evs' : list Event) idx :
  incl evs evs' ->
  forall row row', threaded q fs evs idx row row' -> threaded q fs evs' idx row row'.
Proof.
  intro Hincl. induction idx as [|i idx IH]; intros row row'; simpl; [auto|].
  intros (mid & Hin & Hrest). exists mid. split; [apply Hincl, Hin|apply IH, Hrest].
Qed.

(** One pass of a [transformRow] hook over the rows: each row is handed to
    the hook and replaced by what it returns. *)
Lemma mapM_call (ev : Row -> Outcome Row -> Event) (h : Row -> Hook Row)
    (rs : list Row) :
  forall (s : St) ys,
    outcome (mapM (fun row => call (ev row) (h row)) rs s) = Returned ys ->
    Forall2 (fun row y =>
               In (ev row (Returned y))
                  (events (mapM (fun row => call (ev row) (h row)) rs s)))
            rs ys.
Proof.
  induction rs as [|x rest IH]; intros s ys H; cbn [mapM] in *.
  - inversion H. constructor.
  - rewrite bind_run, call_run in *. cbn [outcome final events] in *.
    destruct (h x (world s)) as [[y|t] w]; cbn [fst snd] in *; [|discriminate].
    rewrite bind_run in *.
    match type of H with
    | context [mapM ?f rest ?s1] =>
        specialize (IH s1); destruct (outcome (mapM f rest s1)) as [ys'|t];
        cbn [outcome events ret] in *; [|discriminate]
    end.
    inversion H; subst. constructor.
    + rewrite ?in_app_iff. cbn [In]. tauto.
    + eapply Forall2_impl; [|apply IH; reflexivity].
      intros a b Hin. cbv beta in *. rewrite ?in_app_iff. cbn [In]. tauto.
Qed.

Lemma Forall2_compose {A B C} (R1 : A -> B -> Prop) (R2 : B -> C -> Prop) xs ys :
  Forall2 R1 xs ys ->
  forall zs, Forall2 R2 ys zs ->
  Forall2 (fun a c => exists b, R1 a b /\ R2 b c) xs zs.
Proof.
  induction 1; intros zs Hz; inversion Hz; subst; constructor; eauto.
Qed.

(** One turn of the [transformRow] loop. *)
Lemma transformRow_body_run (ctx : QueryContext) (q : Query) i
    (x : Interceptor) (result : QueryResult) (s : St) :
  transformRow_body ctx q i x result s =
  match transformRow x, rows result with
  | Some h, Some rs =>
      let rm := mapM (fun row => call (TransformRow i q row (fields result))
                                      (h ctx q row (fields result))) rs s in
      {| outcome := match outcome rm with
                    | Returned rows' =>
                        Returned {| rows := Some rows'; fields := fields result;
                                    notices := notices result |}
                    | Threw t => Threw t
                    end;
         final := final rm;
         events := events rm |}
  | _, _ => {| outcome := Returned result; final := s; events := [] |}
  end.
Proof.
  unfold transformRow_body.
  destruct (transformRow x) as [h|]; [|reflexivity].
  destruct (rows result) as [rs|]; [|reflexivity].
  rewrite bind_run. cbv zeta.
  destruct (outcome (mapM _ rs s)); simpl; rewrite ?app_nil_r; reflexivity.
Qed.

(** The [transformRow] loop takes every row through every hook, in
    registration order. *)
Lemma transformRow_threaded (ctx : QueryContext) (q : Query) (l : list Interceptor) :
  forall i result (s : St) rs result',
    rows result = Some rs ->
    outcome (forOf (transformRow_body ctx q) i l result s) = Returned result' ->
    exists rs',
      rows result' = Some rs' /\
      Forall2 (threaded q (fields result)
                 (events (forOf (transformRow_body ctx q) i l result s))
                 (positions (fun x => has (transformRow x)) i l))
              rs rs'.
Proof.
  induction l as [|x rest IH]; intros i result s rs result' Hrows;
    cbn [forOf positions].
  - intro Hout. inversion Hout; subst. exists rs. split; [exact Hrows|].
    clear. induction rs; constructor; simpl; auto.
  - rewrite bind_run, transformRow_body_run. unfold has at 1.
    destruct (transformRow x) as [h|].
    + rewrite Hrows. cbv zeta.
      pose proof (mapM_call (fun row => TransformRow i q row (fields result))
                    (fun row => h ctx q row (fields result)) rs s) as Hpass.
      destruct (outcome (mapM _ rs s)) as [mid|t]; cbn [outcome final events];
        [|discriminate].
      specialize (Hpass mid eq_refl).
      intro Hout.
      destruct (IH (S i) {| rows := Some mid; fields := fields result;
                            notices := notices result |} _ mid result' eq_refl Hout)
        as (rs' & Hrs' & Hthr).
      cbn [fields] in Hthr.
      exists rs'. split; [exact Hrs'|].
      eapply Forall2_impl; [|exact (Forall2_compose _ _ _ _ Hpass _ Hthr)].
      intros a c (b & Hab & Hbc). simpl. exists b. split.
      * apply in_or_app. left. exact Hab.
      * eapply threaded_incl; [|exact Hbc]. intros e He. apply in_or_app. now right.
    + cbn [outcome final events]. intro Hout.
      destruct (IH (S i) result s rs result' Hrows Hout) as (rs' & Hrs' & Hthr).
      exists rs'. split; [exact Hrs'|exact Hthr].
Qed.

Lemma mapM_pure (ev : Row -> Outcome Row -> Event) (h : Row -> Hook Row)
    (g : Row -> Row) (rs : list Row) :
  (forall row w, h row w = (Returned (g row), w)) ->
  forall s : St,
    outcome (mapM (fun row => call (ev row) (h row)) rs s) = Returned (map g rs).
Proof.
  intro Hh. induction rs as [|x rest IH]; intro s; cbn [mapM map].
  - reflexivity.
  - rewrite bind_run, call_run, Hh. cbn [outcome final fst snd].
    rewrite bind_run, IH. reflexivity.
Qed.

(** With hooks that are functions, the loop maps their composition over
    the rows. *)
Lemma transformRow_pure (ctx : QueryContext) (q : Query) (l : list Interceptor)
    (gs : list (Row -> Row)) :
  Forall2 maps_with l gs ->
  forall i result (s : St) rs,
    rows result = Some rs ->
    outcome (forOf (transformRow_body ctx q) i l result s) =
    Returned {| rows := Some (map (through gs) rs); fields := fields result;
                notices := notices result |}.
Proof.
  induction 1 as [|x g rest gs' Hx _ IH]; intros i result s rs Hrows; cbn [forOf].
  - unfold through. simpl. rewrite map_id. destruct result; simpl in *. now subst.
  - rewrite bind_run, transformRow_body_run. unfold maps_with in Hx.
    destruct (transformRow x) as [h|].
    + rewrite Hrows. cbv zeta.
      rewrite (mapM_pure _ (fun row => h ctx q row (fields result)) g)
        by (intros; apply Hx).
      cbn [outcome final].
      rewrite (IH (S i) {| rows := Some (map g rs); fields := fields result;
                           notices := notices result |} _ (map g rs) eq_refl).
      cbn [fields notices].
      now rewrite map_map.
    + cbn [outcome final]. rewrite (IH (S i) result s rs Hrows).
      do 3 f_equal. apply map_ext. intro row. unfold through. simpl. now rewrite Hx.
Qed.

(** After a successful execution: without rows no [transformRow] hook is
    called; with rows, each row of the result returned has gone through
    every [transformRow] hook in registration order. *)
Lemma complete_rows (cfg : ClientConfiguration) (ctx : QueryContext) (q : Query)
    (raw : QueryResult) (collected : list Notice) (s : St) :
  let rc := complete cfg ctx q (raw, collected) s in
  let idx := positions (fun x => has (transformRow x)) 0 (interceptors cfg) in
  (rows raw = None ->
   Forall (fun e => is_TransformRow e = false) (events rc) /\
   forall result, outcome rc = Returned result -> rows result = None) /\
  (forall rs result,
      rows raw = Some rs -> outcome rc = Returned result ->
      exists rs', rows result = Some rs' /\
                  Forall2 (threaded q (fields raw) (events rc) idx) rs rs') /\
  (forall gs rs result,
      Forall2 maps_with (interceptors cfg) gs ->
      rows raw = Some rs -> outcome rc = Returned result ->
      rows result = Some (map (through gs) rs)).
Proof.
  cbv zeta. unfold complete. cbv zeta. cbn [fst snd rows].
  set (result0 := {| rows := rows raw; fields := fields raw; notices := collected |}).
  rewrite bind_run.
  set (ra := forOf (afterQueryExecution_body ctx q result0) 0 (interceptors cfg) tt s).
  assert (Ha : Forall (fun e => is_TransformRow e = false) (events ra)).
  { apply (afterQueryExecution_confined (fun e => is_TransformRow e = false)).
    reflexivity. }
  assert (Hb : forall res (s' : St),
             Forall (fun e => is_TransformRow e = false)
                    (events (forOf (beforeQueryResult_body ctx q res) 0
                                   (interceptors cfg) tt s'))).
  { intros res s'.
    apply (beforeQueryResult_confined (fun e => is_TransformRow e = false)).
    reflexivity. }
  destruct (outcome ra) as [[]|t]; cbn [outcome final events].
  2:{ split; [intros _; split; [exact Ha|discriminate]|split; discriminate]. }
  rewrite bind_run.
  destruct (rows raw) as [rs0|] eqn:Hraw.
  - split; [discriminate|]. split.
    2:{ intros gs rs result Hgs Hrs Hout. inversion Hrs; subst rs0.
        rewrite (transformRow_pure ctx q (interceptors cfg) gs Hgs 0 result0
                   (final ra) rs eq_refl) in Hout.
        cbn [outcome final events] in Hout. rewrite bind_run in Hout.
        destruct (outcome (forOf (beforeQueryResult_body ctx q _) 0 _ tt _));
          cbn [outcome final events ret] in Hout; [|discriminate].
        inversion Hout; subst result. reflexivity. }
    intros rs result Hrs Hout. inversion Hrs; subst rs0.
    pose proof (transformRow_threaded ctx q (interceptors cfg) 0 result0 (final ra) rs)
      as Hthr.
    destruct (outcome (forOf (transformRow_body ctx q) 0 (interceptors cfg) result0
                             (final ra))) as [result1|t];
      cbn [outcome final events] in *; [|discriminate].
    rewrite bind_run in *.
    destruct (outcome (forOf (beforeQueryResult_body ctx q result1) 0 _ tt _));
      cbn [outcome final events ret] in *; [|discriminate].
    inversion Hout; subst result1.
    destruct (Hthr result eq_refl eq_refl) as (rs' & Hrs' & Hall).
    exists rs'. split; [exact Hrs'|].
    eapply Forall2_impl; [|exact Hall].
    intros row row'. apply threaded_incl. intros e He.
    rewrite ?in_app_iff. tauto.
  - split; [|split; discriminate]. intros _. cbn [outcome final events ret].
    rewrite bind_run.
    specialize (Hb result0 (final ra)).
    destruct (outcome (forOf (beforeQueryResult_body ctx q result0) 0 _ tt _));
      cbn [outcome final events ret]; (split; [|intros res Hres; try discriminate]).
    + repeat (apply Forall_app; split); auto.
    + inversion Hres; subst. reflexivity.
    + repeat (apply Forall_app; split); auto.
Qed.

(** ** Hooks that throw where no handler is *)

Lemma strict_ret {A} (a : A) : strict (ret a : M A).
Proof. intros s e t []. Qed.

Lemma strict_emit (e : Event) : thrown e = None -> strict (emit e : M unit).
Proof.
  intros He s e' t [<-|[]] Ht. congruence.
Qed.

Lemma strict_call {A} (ev : Outcome A -> Event) (h : Hook A) :
  (forall o, thrown (ev o) = match o with Threw t => Some t | Returned _ => None end) ->
  strict (call ev h).
Proof.
  intros Hev s e t Hin Ht. rewrite call_run in *. cbn [outcome events] in *.
  destruct Hin as [<-|[]]. rewrite Hev in Ht.
  destruct (fst (h (world s))) as [a|t']; [discriminate|].
  inversion Ht; subst. split; [reflexivity|now exists []].
Qed.

Lemma strict_bind {A B} (m : M A) (k : A -> M B) :
  strict m -> (forall a, strict (k a)) -> strict (bind m k).
Proof.
  intros Hm Hk s e t Hin Ht. rewrite bind_run in *.
  specialize (Hm s e t).
  destruct (outcome (m s)) as [a|t'] eqn:E; cbn [outcome events] in *.
  - apply in_app_or in Hin. destruct Hin as [Hin|Hin].
    + destruct (Hm Hin Ht) as (H & _). discriminate.
    + destruct (Hk a (final (m s)) e t Hin Ht) as (-> & pre & ->).
      split; [reflexivity|]. exists (events (m s) ++ pre). now rewrite app_assoc.
  - destruct (Hm Hin Ht) as (H & Hpre). inversion H; subst. auto.
Qed.

Lemma strict_forOf {A} (body : nat -> Interceptor -> A -> M A) (l : list Interceptor) :
  (forall i x a, strict (body i x a)) ->
  forall i a, strict (forOf body i l a).
Proof.
  intro H. induction l as [|x rest IH]; intros i a; cbn [forOf].
  - apply strict_ret.
  - apply strict_bind; auto.
Qed.

Lemma strict_mapM {A B} (f : A -> M B) (xs : list A) :
  (forall x, strict (f x)) -> strict (mapM f xs).
Proof.
  intro H. induction xs as [|x rest IH]; cbn [mapM].
  - apply strict_ret.
  - apply strict_bind; auto. intro y.
    apply strict_bind; auto. intro ys. apply strict_ret.
Qed.

Ltac strictly :=
  repeat first
    [ apply strict_ret | apply strict_emit | apply strict_call
    | apply strict_forOf | apply strict_mapM | apply strict_bind
    | progress intros
    | match goal with |- thrown (_ ?o) = _ => destruct o; reflexivity end
    | reflexivity ].

Lemma prepare_strict (cfg : ClientConfiguration) (ctx : QueryContext) (original : Query) :
  strict (prepare cfg ctx original).
Proof.
  unfold prepare.
  apply strict_bind.
  { apply strict_forOf. intros i x a. unfold beforeTransformQuery_body.
    destruct (beforeTransformQuery x); strictly. }
  intros _. apply strict_bind.
  { apply strict_forOf. intros i x a. unfold transformQuery_body.
    destruct (transformQuery x); strictly. }
  intro q. apply strict_bind; [|strictly].
  generalize 0. induction (interceptors cfg) as [|x rest IH]; intro i;
    cbn [beforeQueryExecution_loop]; [strictly|].
  destruct (beforeQueryExecution x); [|apply IH].
  apply strict_bind; [strictly|]. intros [res|]; [strictly|apply IH].
Qed.

Lemma complete_strict (cfg : ClientConfiguration) (ctx : QueryContext) (q : Query)
    (settled : QueryResult * list Notice) :
  strict (complete cfg ctx q settled).
Proof.
  unfold complete. cbv zeta.
  apply strict_bind.
  { apply strict_forOf. intros i x a. unfold afterQueryExecution_body.
    destruct (afterQueryExecution x); strictly. }
  intros _. apply strict_bind.
  { cbn [rows]. destruct (rows (fst settled)); [|strictly].
    apply strict_forOf. intros i x a. unfold transformRow_body.
    destruct (transformRow x); [|strictly]. destruct (rows a); strictly. }
  intro result. apply strict_bind; [|strictly].
  apply strict_forOf. intros i x a. unfold beforeQueryResult_body.
  destruct (beforeQueryResult x); strictly.
Qed.

(** ** The hooks called for their effect *)

Lemma beforeTransformQuery_sequence (ctx : QueryContext) (q : Query)
    (l : list Interceptor) (i : nat) (s : St) :
  sequence (fun k => BeforeTransformQuery k q)
           (positions (fun x => has (beforeTransformQuery x)) i l)
           (events (forOf (beforeTransformQuery_body ctx q) i l tt s))
           (outcome (forOf (beforeTransformQuery_body ctx q) i l tt s)).
Proof.
  apply forOf_sequence
    with (sel := fun x => option_map (fun h => h ctx q) (beforeTransformQuery x)).
  - intros k x u. unfold beforeTransformQuery_body.
    destruct (beforeTransformQuery x); reflexivity.
  - intro x. destruct (beforeTransformQuery x); reflexivity.
Qed.

Lemma afterQueryExecution_sequence (ctx : QueryContext) (q : Query)
    (result : QueryResult) (l : list Interceptor) (i : nat) (s : St) :
  sequence (fun k => AfterQueryExecution k q result)
           (positions (fun x => has (afterQueryExecution x)) i l)
           (events (forOf (afterQueryExecution_body ctx q result) i l tt s))
           (outcome (forOf (afterQueryExecution_body ctx q result) i l tt s)).
Proof.
  apply forOf_sequence
    with (sel := fun x => option_map (fun h => h ctx q result) (afterQueryExecution x)).
  - intros k x u. unfold afterQueryExecution_body.
    destruct (afterQueryExecution x); reflexivity.
  - intro x. destruct (afterQueryExecution x); reflexivity.
Qed.

Lemma beforeQueryResult_sequence (ctx : QueryContext) (q : Query)
    (result : QueryResult) (l : list Interceptor) (i : nat) (s : St) :
  sequence (fun k => BeforeQueryResult k q result)
           (positions (fun x => has (beforeQueryResult x)) i l)
           (events (forOf (beforeQueryResult_body ctx q result) i l tt s))
           (outcome (forOf (beforeQueryResult_body ctx q result) i l tt s)).
Proof.
  apply forOf_sequence
    with (sel := fun x => option_map (fun h => h ctx q result) (beforeQueryResult x)).
  - intros k x u. unfold beforeQueryResult_body.
    destruct (beforeQueryResult x); reflexivity.
  - intro x. destruct (beforeQueryResult x); reflexivity.
Qed.

(** The [transformRow] loop changes the rows only. *)
Lemma transformRow_keeps (ctx : QueryContext) (q : Query) (l : list Interceptor) :
  forall i result (s : St) result',
    outcome (forOf (transformRow_body ctx q) i l result s) = Returned result' ->
    fields result' = fields result /\ notices result' = notices result.
Proof.
  induction l as [|x rest IH]; intros i result s result'; cbn [forOf].
  - intro H. inversion H. auto.
  - rewrite bind_run, transformRow_body_run.
    destruct (transformRow x) as [h|]; [destruct (rows result) as [rs|]|].
    + cbv zeta. destruct (outcome (mapM _ rs s)) as [mid|t]; cbn [outcome final];
        [|discriminate].
      intro H. apply IH in H. exact H.
    + cbn [outcome final]. apply IH.
    + cbn [outcome final]. apply IH.
Qed.

Section Complete.

Variable cfg : ClientConfiguration.
Variable ctx : QueryContext.
Variable q : Query.
Variable raw : QueryResult.
Variable collected : list Notice.
Variable s : St.

Let result0 : QueryResult :=
  {| rows := rows raw; fields := fields raw; notices := collected |}.
Let ra := forOf (afterQueryExecution_body ctx q result0) 0 (interceptors cfg) tt s.
Let rt : Run QueryResult :=
  match rows raw with
  | Some _ => forOf (transformRow_body ctx q) 0 (interceptors cfg) result0 (final ra)
  | None => ret result0 (final ra)
  end.

(** [complete], one loop after the other. *)
Lemma complete_run :
  complete cfg ctx q (raw, collected) s =
  match outcome ra with
  | Threw t => {| outcome := Threw t; final := final ra; events := events ra |}
  | Returned _ =>
      match outcome rt with
      | Threw t => {| outcome := Threw t; final := final rt;
                      events := events ra ++ events rt |}
      | Returned result =>
          let rb := forOf (beforeQueryResult_body ctx q result) 0 (interceptors cfg) tt
                          (final rt) in
          {| outcome := match outcome rb with
                        | Returned _ => Returned result
                        | Threw t => Threw t
                        end;
             final := final rb;
             events := events ra ++ events rt ++ events rb |}
      end
  end.
Proof.
  unfold complete. cbv zeta. cbn [fst snd rows]. fold result0.
  rewrite bind_run. fold ra.
  destruct (outcome ra) as [[]|t]; [|reflexivity].
  rewrite bind_run.
  assert (Hrt : (match rows raw with
                 | Some _ => forOf (transformRow_body ctx q) 0 (interceptors cfg) result0
                 | None => ret result0
                 end) (final ra) = rt).
  { subst rt. destruct (rows raw); reflexivity. }
  rewrite Hrt.
  destruct (outcome rt) as [result|t]; [|reflexivity].
  rewrite bind_run. cbv zeta.
  destruct (outcome (forOf (beforeQueryResult_body ctx q result) 0 _ tt (final rt)));
    simpl; rewrite ?app_nil_r; reflexivity.
Qed.

(** What the hooks after a successful execution are handed, and in which
    order they are called. *)
Lemma complete_order :
  exists ea et eb oa,
    events (complete cfg ctx q (raw, collected) s) = ea ++ et ++ eb /\
    sequence (fun k => AfterQueryExecution k q result0)
             (positions (fun x => has (afterQueryExecution x)) 0 (interceptors cfg))
             ea oa /\
    Forall (fun e => is_TransformRow e = true) et /\
    Forall (fun e => is_BeforeQueryResult e = true) eb /\
    (forall result,
        outcome (complete cfg ctx q (raw, collected) s) = Returned result ->
        oa = Returned tt /\
        sequence (fun k => BeforeQueryResult k q result)
                 (positions (fun x => has (beforeQueryResult x)) 0 (interceptors cfg))
                 eb (Returned tt) /\
        fields result = fields raw /\
        notices result = collected).
Proof.
  rewrite complete_run.
  pose proof (afterQueryExecution_sequence ctx q result0 (interceptors cfg) 0 s) as Ha.
  fold ra in Ha.
  assert (Ht : Forall (fun e => is_TransformRow e = true) (events rt)).
  { subst rt. destruct (rows raw); [|constructor].
    apply (transformRow_confined (fun e => is_TransformRow e = true)). reflexivity. }
  assert (Hkeep : forall result, outcome rt = Returned result ->
                  fields result = fields raw /\ notices result = collected).
  { subst rt. intros result H. destruct (rows raw).
    - apply transformRow_keeps in H. exact H.
    - inversion H. auto. }
  destruct (outcome ra) as [[]|t] eqn:Ea; cbn [outcome events].
  2:{ exists (events ra), [], [], (Threw t). rewrite !app_nil_r.
      repeat split; auto; discriminate. }
  destruct (outcome rt) as [result1|t] eqn:Et; cbn [outcome events].
  2:{ exists (events ra), (events rt), [], (Returned tt). rewrite !app_nil_r.
      repeat split; auto; discriminate. }
  cbv zeta. cbn [outcome events].
  pose proof (beforeQueryResult_sequence ctx q result1 (interceptors cfg) 0 (final rt))
    as Hb.
  exists (events ra), (events rt),
         (events (forOf (beforeQueryResult_body ctx q result1) 0 (interceptors cfg) tt
                        (final rt))), (Returned tt).
  split; [reflexivity|]. split; [exact Ha|]. split; [exact Ht|]. split.
  - apply (beforeQueryResult_confined (fun e => is_BeforeQueryResult e = true)).
    reflexivity.
  - intros result Hres.
    destruct (outcome (forOf (beforeQueryResult_body ctx q result1) 0 _ tt (final rt)))
      as [[]|t]; [|discriminate].
    inversion Hres; subst result1.
    split; [reflexivity|]. split; [exact Hb|]. apply Hkeep. reflexivity.
Qed.

End Complete.

Lemma attached_listener (c : Connection) (l : nat) :
  existsb (Nat.eqb l) (listeners (set_listeners c (listeners c ++ [l]))) = true.
Proof.
  cbn [set_listeners listeners]. rewrite existsb_app. simpl.
  now rewrite Nat.eqb_refl, orb_true_r.
Qed.

Lemma classification_original (error : DriverError) :
  original_error (classification error) = Some error.
Proof.
  unfold classification, classification_table, is_termination, is_timeout.
  cbn [find fst snd].
  destruct (code_is error "57P01" || (message error =? "Connection terminated"));
    [reflexivity|].
  destruct (code_is error "57014"); cbn [andb].
  - destruct (includes (message error) _); reflexivity.
  - destruct (code_is error "23502"); [reflexivity|].
    destruct (code_is error "23503"); [reflexivity|].
    destruct (code_is error "23505"); [reflexivity|].
    destruct (code_is error "23514"); reflexivity.
Qed.

(** The hooks after a successful execution are handed the query that was
    executed. *)
Lemma complete_query (cfg : ClientConfiguration) (ctx : QueryContext) (q : Query)
    (settled : QueryResult * list Notice) (s : St) :
  Forall (fun e => query_of e = Some q /\ is_BeforeTransformQuery e = false)
         (events (complete cfg ctx q settled s)).
Proof.
  revert s.
  change (forall s, Forall (fun e => query_of e = Some q /\
                                     is_BeforeTransformQuery e = false)
                           (events (complete cfg ctx q settled s))).
  assert (H : confined (fun e => query_of e = Some q /\
                                 is_BeforeTransformQuery e = false)
                       (complete cfg ctx q settled)).
  { unfold complete. cbv zeta.
    apply confined_bind.
    { apply afterQueryExecution_confined. intros; split; reflexivity. }
    intros _. apply confined_bind.
    { cbn [rows]. destruct (rows (fst settled)); [|confine].
      apply transformRow_confined. intros; split; reflexivity. }
    intro result. apply confined_bind; [|confine].
    apply beforeQueryResult_confined. intros; split; reflexivity. }
  intro s. apply H.
Qed.

(** The hooks before the execution: [beforeTransformQuery] hooks are handed
    the original query, [beforeQueryExecution] hooks the query [prepare]
    returns. *)
Lemma prepare_queries (cfg : ClientConfiguration) (ctx : QueryContext)
    (original : Query) (s : St) q short :
  outcome (prepare cfg ctx original s) = Returned (q, short) ->
  Forall (fun e => (after_transform e = true -> query_of e = Some q) /\
                   (is_BeforeTransformQuery e = true -> query_of e = Some original))
         (events (prepare cfg ctx original s)).
Proof.
  rewrite prepare_run.
  set (r1 := forOf (beforeTransformQuery_body ctx original) 0 (interceptors cfg) tt s).
  set (r2 := forOf (transformQuery_body ctx) 0 (interceptors cfg) original (final r1)).
  assert (H1 : Forall (fun e => (after_transform e = true -> query_of e = Some q) /\
                                (is_BeforeTransformQuery e = true ->
                                 query_of e = Some original)) (events r1)).
  { apply (beforeTransformQuery_confined
             (fun e => (after_transform e = true -> query_of e = Some q) /\
                       (is_BeforeTransformQuery e = true -> query_of e = Some original))).
    intros; split; [discriminate|reflexivity]. }
  assert (H2 : Forall (fun e => (after_transform e = true -> query_of e = Some q) /\
                                (is_BeforeTransformQuery e = true ->
                                 query_of e = Some original)) (events r2)).
  { apply (transformQuery_confined
             (fun e => (after_transform e = true -> query_of e = Some q) /\
                       (is_BeforeTransformQuery e = true -> query_of e = Some original))).
    intros; split; discriminate. }
  destruct (outcome r1) as [[]|t]; [|discriminate].
  destruct (outcome r2) as [q2|t]; [|discriminate].
  cbv zeta. cbn [outcome events]. intro H.
  assert (q2 = q) as ->.
  { destruct (outcome (beforeQueryExecution_loop ctx q2 0 (interceptors cfg) (final r2)));
      [now inversion H|discriminate]. }
  repeat (apply Forall_app; split); auto.
  apply (beforeQueryExecution_confined
           (fun e => (after_transform e = true -> query_of e = Some q) /\
                     (is_BeforeTransformQuery e = true -> query_of e = Some original)));
    intros; split; try reflexivity; discriminate.
Qed.

(** When the [beforeQueryExecution] loop falls through, every hook has been
    called, in registration order, and has returned no result. *)
Lemma beforeQueryExecution_loop_declined (ctx : QueryContext) (q : Query)
    (l : list Interceptor) :
  forall i (s : St),
    outcome (beforeQueryExecution_loop ctx q i l s) = Returned None ->
    events (beforeQueryExecution_loop ctx q i l s) =
    map (fun k => BeforeQueryExecution k q (Returned None))
        (positions (fun x => has (beforeQueryExecution x)) i l).
Proof.
  induction l as [|x rest IH]; intros i s; cbn [beforeQueryExecution_loop positions].
  - reflexivity.
  - unfold has at 1. destruct (beforeQueryExecution x) as [h|]; [|apply IH].
    rewrite bind_run, call_run. cbn [outcome final events].
    destruct (h ctx q (world s)) as [[[res|]|t] w]; cbn [fst snd outcome events map].
    + simpl. discriminate.
    + intro H. rewrite (IH _ _ H). reflexivity.
    + discriminate.
Qed.

Lemma prepare_declined (cfg : ClientConfiguration) (ctx : QueryContext)
    (original : Query) (s : St) q :
  outcome (prepare cfg ctx original s) = Returned (q, None) ->
  filter is_BeforeQueryExecution (events (prepare cfg ctx original s)) =
  map (fun k => BeforeQueryExecution k q (Returned None))
      (positions (fun x => has (beforeQueryExecution x)) 0 (interceptors cfg)).
Proof.
  rewrite prepare_run.
  set (r1 := forOf (beforeTransformQuery_body ctx original) 0 (interceptors cfg) tt s).
  set (r2 := forOf (transformQuery_body ctx) 0 (interceptors cfg) original (final r1)).
  assert (H1 : filter is_BeforeQueryExecution (events r1) = []).
  { apply filter_none.
    apply (beforeTransformQuery_confined (fun e => is_BeforeQueryExecution e = false)).
    reflexivity. }
  assert (H2 : filter is_BeforeQueryExecution (events r2) = []).
  { apply filter_none.
    apply (transformQuery_confined (fun e => is_BeforeQueryExecution e = false)).
    reflexivity. }
  destruct (outcome r1) as [[]|t]; [|discriminate].
  destruct (outcome r2) as [q2|t]; [|discriminate].
  cbv zeta. cbn [outcome events]. intro H.
  pose proof (beforeQueryExecution_loop_declined ctx q2 (interceptors cfg) 0 (final r2))
    as H3.
  destruct (outcome (beforeQueryExecution_loop ctx q2 0 (interceptors cfg) (final r2)))
    as [short|t]; [|discriminate].
  inversion H; subst q2 short.
  rewrite !filter_app, H1, H2, (H3 eq_refl). cbn [app].
  apply filter_all. apply Forall_forall. intros e He.
  apply in_map_iff in He. destruct He as (k & <- & _). reflexivity.
Qed.

Section Settles.

Variable normaliseQueryValues : list Value -> bool -> list Value.
Variable cfg : ClientConfiguration.
Variable ctx : QueryContext.
Variable er : ExecutionRoutine.
Variable original : Query.
Variable s : St.

Let r0 := prepare cfg ctx original s.
Let r := pipeline normaliseQueryValues cfg ctx er original s.
Let l := closures s.

(** When the hooks before the execution have returned without a result,
    the execution routine is called, with the listener attached, on the
    world those hooks left; what it settles with is what is recorded, and
    when it resolves the notices it emitted are the ones collected. *)
Lemma pipeline_settles q out emitted w :
  outcome r0 = Returned (q, None) ->
  er (set_listeners (connection s) (listeners (connection s) ++ [l]))
     (sql q) (normaliseQueryValues (values q) (native (connection s)))
     ctx q (world (final r0)) = (out, emitted, w) ->
  In (Execute (sql q) (normaliseQueryValues (values q) (native (connection s))) q out)
     (events r) /\
  (forall raw,
      out = inr raw ->
      let rc := complete cfg ctx q (raw, emitted)
                  {| world := w; connection := connection s;
                     closures := S (closures s) |} in
      events r = events r0 ++
                 [ListenerOn l;
                  Execute (sql q)
                          (normaliseQueryValues (values q) (native (connection s)))
                          q out;
                  ListenerOff l] ++ events rc /\
      outcome r = outcome rc /\
      final r = final rc).
Proof.
  intros E0 E.
  destruct (prepare_confined (fun _ => True) cfg ctx original (fun _ _ => I) s)
    as (Hc & Hn & _). fold r0 in Hc, Hn.
  subst r l. unfold pipeline. rewrite bind_run. fold r0. rewrite E0. cbn [fst snd].
  rewrite listener_block. cbv zeta. rewrite Hc, Hn.
  cbn [outcome final events]. rewrite bind_run.
  set (s1 := {| world := world (final r0);
                connection := set_listeners (connection s)
                                (listeners (connection s) ++ [closures s]);
                closures := S (closures s) |}).
  destruct out as [error|raw].
  - pose proof (attempt_rejected normaliseQueryValues cfg ctx er (closures s) q s1
                  error emitted w E) as Ha.
    cbv zeta in Ha. rewrite Ha. clear Ha. cbn [outcome final events].
    split; [|discriminate].
    match goal with
    | |- context [forOf ?b 0 ?xs tt ?s0] => destruct (outcome (forOf b 0 xs tt s0))
    end; cbn [events]; apply in_or_app; right; simpl; auto.
  - pose proof (attempt_resolved normaliseQueryValues cfg ctx er (closures s) q s1
                  raw emitted w E) as Ha.
    rewrite Ha. clear Ha. cbn [outcome final events].
    unfold s1. cbn [connection closures].
    rewrite attached_listener, detach_attached. cbn [native set_listeners].
    split.
    + apply in_or_app; right; simpl; auto.
    + intros raw' Hraw. inversion Hraw; subst raw'. cbv zeta.
      repeat split; reflexivity.
Qed.

End Settles.

Section Entry.

Variable normaliseQueryValues : list Value -> bool -> list Value.
Variable rt : Runtime.
Variable cfg : ClientConfiguration.
Variable rawSql : string.
Variable vals : list Value.
Variable inheritedQueryId : option string.
Variable er : ExecutionRoutine.
Variable s : St.

Let original : Query := {| sql := rawSql; values := vals |}.
Let ctx := make_context rt cfg (connection s) original inheritedQueryId.
Let r := executeQuery normaliseQueryValues rt cfg rawSql vals inheritedQueryId er s.
Let r0 := prepare cfg ctx original s.
Let l := closures s.

(** The preconditions of lines 55-65, then the pipeline. *)
Lemma executeQuery_cases :
  (exists cause, terminated (connection s) = Some cause /\
                 r = {| outcome := Threw (BackendTerminatedError cause);
                        final := s; events := [] |})
  \/
  (terminated (connection s) = None /\
   (trim rawSql = "" \/ trim rawSql = "$1") /\
   exists msg, r = {| outcome := Threw (InvalidInputError msg);
                      final := s; events := [] |})
  \/
  (terminated (connection s) = None /\
   trim rawSql <> "" /\ trim rawSql <> "$1" /\
   r = pipeline normaliseQueryValues cfg ctx er original s).
Proof.
  subst r ctx original. unfold executeQuery. rewrite bind_run.
  cbn [get_connection outcome final events].
  destruct (terminated (connection s)) as [cause|].
  - left. exists cause. split; reflexivity.
  - right. destruct (trim rawSql =? "")%string eqn:E1.
    + left. apply String.eqb_eq in E1. split; [reflexivity|]. split; [now left|].
      eexists. reflexivity.
    + destruct (trim rawSql =? "$1")%string eqn:E2.
      * left. apply String.eqb_eq in E2. split; [reflexivity|]. split; [now right|].
        eexists. reflexivity.
      * right. apply String.eqb_neq in E1, E2. repeat split; auto.
        simpl. apply eq_sym, run_eta.
Qed.

(** A run in which the execution routine is called: the hooks before it
    have all returned without a result, the listener is attached just
    before the call and removed just after the error is logged or the
    result is in. *)
Lemma executeQuery_executed text vs q out :
  In (Execute text vs q out) (events r) ->
  terminated (connection s) = None /\
  outcome r0 = Returned (q, None) /\
  text = sql q /\
  vs = normaliseQueryValues (values q) (native (connection s)) /\
  match out with
  | inl error =>
      exists post o,
        events r = events r0 ++
                   [ListenerOn l; Execute text vs q out;
                    LogError error msg_execution_error; ListenerOff l] ++ post /\
        sequence (fun k => QueryExecutionError k q (classification error))
                 (positions (fun x => has (queryExecutionError x)) 0 (interceptors cfg))
                 post o /\
        outcome r = Threw (match o with
                           | Returned _ => classification error
                           | Threw t => t
                           end) /\
        connection (final r) = (if is_termination error
                                then set_terminated (connection s) error
                                else connection s) /\
        closures (final r) = S (closures s)
  | inr raw =>
      exists collected s',
        connection s' = connection s /\
        closures s' = S (closures s) /\
        let rc := complete cfg ctx q (raw, collected) s' in
        events r = events r0 ++
                   [ListenerOn l; Execute text vs q out; ListenerOff l] ++ events rc /\
        outcome r = outcome rc /\
        final r = final rc
  end.
Proof.
  intro Hin.
  assert (Hpre : Forall (fun e => before_execution e = true) (events r0)).
  { apply (prepare_confined (fun e => before_execution e = true)); auto. }
  assert (Hno : forall text vs q out, ~ In (Execute text vs q out) (events r0)).
  { intros ? ? ? ? H. rewrite Forall_forall in Hpre. now apply Hpre in H. }
  destruct executeQuery_cases as [(cause & _ & Hr) | [(_ & _ & msg & Hr) | (Ht & _ & _ & Hr)]].
  1,2: rewrite Hr in Hin; destruct Hin.
  split; [exact Ht|].
  pose proof (pipeline_cases normaliseQueryValues cfg ctx er original s) as Hcases.
  cbv zeta in Hcases. rewrite <- Hr in Hcases. fold r0 l in Hcases.
  destruct Hcases as [(t & _ & Hr') | [(q' & res & _ & Hr')
    | [(q' & error & post & o & E0 & Hev & Hseq & Hout & Hconn & Hcl)
      | (q' & raw & collected & s' & E0 & Hc & Hn & Hev & Hout & Hfin)]]].
  1,2: rewrite Hr' in Hin; cbn [events] in Hin; now apply Hno in Hin.
  - rewrite Hev in Hin. apply in_app_or in Hin. destruct Hin as [Hin|Hin];
      [now apply Hno in Hin|].
    apply in_app_or in Hin. destruct Hin as [Hin|Hin].
    + simpl in Hin. destruct Hin as [H|[H|[H|[H|[]]]]]; try discriminate.
      inversion H; subst. repeat split; auto.
      exists post, o. repeat split; auto.
    + apply (sequence_Forall (fun e => is_QueryExecutionError e = true)) in Hseq;
        [|reflexivity].
      rewrite Forall_forall in Hseq. apply Hseq in Hin. discriminate.
  - rewrite Hev in Hin. apply in_app_or in Hin. destruct Hin as [Hin|Hin];
      [now apply Hno in Hin|].
    apply in_app_or in Hin. destruct Hin as [Hin|Hin].
    + simpl in Hin. destruct Hin as [H|[H|[H|[]]]]; try discriminate.
      inversion H; subst. repeat split; auto.
      exists collected, s'. repeat split; auto.
    + exfalso.
      destruct (complete_confined (fun e => after_execution e = true) cfg ctx q'
                  (raw, collected) (fun _ H => H) s') as (_ & _ & Hc').
      rewrite Forall_forall in Hc'. apply Hc' in Hin. discriminate.
Qed.

(** ** Preconditions *)

(** C4. A call on a connection whose termination flag is set fails at once
    with [BackendTerminatedError] carrying the stored cause: nothing is
    called (no hook, no execution routine) and the state is as it was. *)
Theorem terminated_connection_rejected (cause : DriverError) :
  terminated (connection s) = Some cause ->
  r = {| outcome := Threw (BackendTerminatedError cause); final := s; events := [] |}.
Proof.
  intro H.
  destruct executeQuery_cases as [(c & Hc & Hr) | [(Ht & _) | (Ht & _)]];
    congruence.
Qed.

(** C3, as amended. A call whose SQL is, once trimmed, empty or [$1] fails
    before anything is called (no hook, no execution routine): with
    [InvalidInputError] when the termination flag is unset, and with
    [BackendTerminatedError] when it is set, that test being made first. *)
Theorem invalid_input_rejected :
  trim rawSql = "" \/ trim rawSql = "$1" ->
  events r = [] /\
  final r = s /\
  match terminated (connection s) with
  | None => exists msg, outcome r = Threw (InvalidInputError msg)
  | Some cause => outcome r = Threw (BackendTerminatedError cause)
  end.
Proof.
  intro H.
  destruct executeQuery_cases
    as [(c & Hc & Hr) | [(Ht & _ & msg & Hr) | (Ht & H1 & H2 & _)]].
  - rewrite Hr, Hc. auto.
  - rewrite Hr, Ht. simpl. eauto.
  - tauto.
Qed.

(** ** The short circuit *)

(** C5. When a [beforeQueryExecution] hook returns a result, the call
    returns that result; the hook's call is the last one made, followed only
    by the log entry, and no earlier hook had returned a result; the
    execution routine is not called, no listener is attached or made, and no
    [afterQueryExecution], [transformRow], [beforeQueryResult] or
    [queryExecutionError] hook is called. *)
Theorem beforeQueryExecution_short_circuits k q res :
  In (BeforeQueryExecution k q (Returned (Some res))) (events r) ->
  outcome r = Returned res /\
  (exists pre,
      events r = pre ++ [BeforeQueryExecution k q (Returned (Some res));
                         LogInfo msg_short_circuit] /\
      Forall (fun e => short_circuits e = false) pre) /\
  Forall (fun e => touches_driver e = false /\ after_execution e = false /\
                   is_QueryExecutionError e = false) (events r) /\
  connection (final r) = connection s /\
  closures (final r) = closures s.
Proof.
  intro Hin.
  pose proof (prepare_short cfg ctx original s) as Hshort. cbv zeta in Hshort.
  fold r0 in Hshort.
  destruct (prepare_confined
              (fun e => touches_driver e = false /\ after_execution e = false /\
                        is_QueryExecutionError e = false) cfg ctx original) with (s := s)
    as (Hc0 & Hn0 & Hev0).
  { intros [] He; try discriminate; auto. }
  fold r0 in Hc0, Hn0, Hev0.
  assert (Hnot : forall evs : list Event,
                 Forall (fun e => short_circuits e = false) evs ->
                 ~ In (BeforeQueryExecution k q (Returned (Some res))) evs).
  { intros evs H Hi. rewrite Forall_forall in H. apply H in Hi. discriminate. }
  destruct executeQuery_cases as [(cause & _ & Hr) | [(_ & _ & msg & Hr) | (Ht & _ & _ & Hr)]].
  1,2: rewrite Hr in Hin; destruct Hin.
  pose proof (pipeline_cases normaliseQueryValues cfg ctx er original s) as Hcases.
  cbv zeta in Hcases. rewrite <- Hr in Hcases. fold r0 l in Hcases.
  destruct Hcases as [(t & E0 & Hr') | [(q' & res' & E0 & Hr')
    | [(q' & error & post & o & E0 & Hev & Hseq & _)
      | (q' & raw & collected & s' & E0 & _ & _ & Hev & _)]]].
  - rewrite Hr' in Hin. cbn [events] in Hin. rewrite E0 in Hshort.
    now apply Hnot in Hin.
  - rewrite E0 in Hshort. destruct Hshort as (pre & k' & Hev & Hpre).
    rewrite Hr' in *. cbn [events outcome final] in *.
    rewrite Hev in Hin. apply in_app_or in Hin. destruct Hin as [Hin|Hin];
      [now apply Hnot in Hin|].
    destruct Hin as [H|[H|[]]]; [|discriminate].
    inversion H; subst. repeat split; auto.
    exists pre. split; auto.
  - rewrite E0 in Hshort. rewrite Hev in Hin.
    apply in_app_or in Hin. destruct Hin as [Hin|Hin]; [now apply Hnot in Hin|].
    apply in_app_or in Hin. destruct Hin as [Hin|Hin].
    + simpl in Hin. destruct Hin as [H|[H|[H|[H|[]]]]]; discriminate.
    + apply (sequence_Forall (fun e => short_circuits e = false)) in Hseq;
        [|reflexivity]. now apply Hnot in Hin.
  - rewrite E0 in Hshort. rewrite Hev in Hin.
    apply in_app_or in Hin. destruct Hin as [Hin|Hin]; [now apply Hnot in Hin|].
    apply in_app_or in Hin. destruct Hin as [Hin|Hin].
    + simpl in Hin. destruct Hin as [H|[H|[H|[]]]]; discriminate.
    + destruct (complete_confined (fun e => short_circuits e = false) cfg ctx q'
                  (raw, collected)) with (s := s') as (_ & _ & Hc').
      { intros [] He; try discriminate; reflexivity. }
      now apply Hnot in Hin.
Qed.

(** ** The notice listener *)

(** Whatever its course, a call leaves the connection the listeners it had,
    and makes at most one closure. *)
Lemma executeQuery_keeps_listeners :
  listeners (connection (final r)) = listeners (connection s) /\
  closures s <= closures (final r) <= S (closures s).
Proof.
  destruct (prepare_confined (fun _ => True) cfg ctx original (fun _ _ => I) s)
    as (Hc0 & Hn0 & _). fold r0 in Hc0, Hn0.
  destruct executeQuery_cases as [(cause & _ & Hr) | [(_ & _ & msg & Hr) | (Ht & _ & _ & Hr)]].
  1,2: rewrite Hr; cbn [final]; split; [reflexivity|lia].
  pose proof (pipeline_cases normaliseQueryValues cfg ctx er original s) as Hcases.
  cbv zeta in Hcases. rewrite <- Hr in Hcases. fold r0 l in Hcases.
  destruct Hcases as [(t & _ & Hr') | [(q' & res & _ & Hr')
    | [(q' & error & post & o & _ & _ & _ & _ & Hconn & Hcl)
      | (q' & raw & collected & s' & _ & Hc & Hn & _ & _ & Hfin)]]].
  1,2: rewrite Hr'; cbn [final]; rewrite Hc0, Hn0; split; [reflexivity|lia].
  - rewrite Hconn, Hcl. split; [destruct (is_termination error); reflexivity|lia].
  - destruct (complete_confined (fun _ => True) cfg ctx q' (raw, collected)
                (fun _ _ => I) s') as (Hc' & Hn' & _).
    rewrite Hfin, Hc', Hn', Hc, Hn. split; [reflexivity|lia].
Qed.

(** So the listeners attached stay among the closures made. *)
Lemma executeQuery_listeners_made : listeners_made s -> listeners_made (final r).
Proof.
  unfold listeners_made. destruct executeQuery_keeps_listeners as (-> & Hle & _).
  apply Forall_impl. intros; lia.
Qed.


(** ** The query handed to the execution routine *)

(** C7. The [transformQuery] calls of a run, taken in the order they are
    made, go through the interceptors having the hook in registration
    order, the first given the copy of the original query and each next one
    the query the one before returned; and when the execution routine is
    called it is given the query the last hook returned, its [sql], and its
    [values] normalised. With hooks that are functions, that query is
    [fK (... (f2 (f1 original)))]. And the routine is called: in a call that
    passes the preconditions and whose hooks before the execution return,
    none with a result, the execution routine is applied to the connection
    with the listener attached, that [sql], those values, the context and
    that query, in the world the hooks left. *)
Theorem transformQuery_composes :
  let tq := filter is_TransformQuery (events r) in
  let idx := positions (fun x => has (transformQuery x)) 0 (interceptors cfg) in
  (tq = [] \/ exists o, rewrites idx original tq o) /\
  (forall text vs q out,
      In (Execute text vs q out) (events r) ->
      rewrites idx original tq (Returned q) /\
      text = sql q /\
      vs = normaliseQueryValues (values q) (native (connection s)) /\
      forall fs, Forall2 rewrites_with (interceptors cfg) fs ->
                 q = through fs original) /\
  (forall q,
      terminated (connection s) = None ->
      trim rawSql <> "" -> trim rawSql <> "$1" ->
      outcome r0 = Returned (q, None) ->
      In (Execute (sql q) (normaliseQueryValues (values q) (native (connection s))) q
            (fst (fst (er (set_listeners (connection s)
                                         (listeners (connection s) ++ [l]))
                          (sql q)
                          (normaliseQueryValues (values q) (native (connection s)))
                          ctx q (world (final r0))))))
         (events r)).
Proof.
  cbv zeta.
  destruct (prepare_rewrites cfg ctx original s) as (Hany & Hret).
  fold r0 in Hany, Hret.
  assert (Htq : filter is_TransformQuery (events r) = filter is_TransformQuery (events r0)
                \/ events r = []).
  { destruct executeQuery_cases as [(cause & _ & Hr) | [(_ & _ & msg & Hr) | (Ht & _ & _ & Hr)]].
    1,2: right; now rewrite Hr.
    left.
    pose proof (pipeline_cases normaliseQueryValues cfg ctx er original s) as Hcases.
    cbv zeta in Hcases. rewrite <- Hr in Hcases. fold r0 l in Hcases.
    destruct Hcases as [(t & E0 & Hr') | [(q' & res' & E0 & Hr')
      | [(q' & error & post & o & E0 & Hev & Hseq & _)
        | (q' & raw & collected & s' & E0 & _ & _ & Hev & _)]]].
    - now rewrite Hr'.
    - now rewrite Hr'.
    - rewrite Hev, !filter_app. simpl.
      rewrite (filter_none is_TransformQuery post); [now rewrite app_nil_r|].
      eapply sequence_Forall; [|exact Hseq]. reflexivity.
    - rewrite Hev, !filter_app. simpl.
      rewrite (filter_none is_TransformQuery (events (complete _ _ _ _ _)));
        [now rewrite app_nil_r|].
      apply (complete_confined (fun e => is_TransformQuery e = false)).
      intros [] He; try discriminate; reflexivity. }
  split; [|split].
  - destruct Htq as [-> | ->]; [exact Hany|now left].
  - intros text vs q out Hin.
    destruct (executeQuery_executed _ _ _ _ Hin) as (_ & E0 & Ht & Hv & _).
    destruct Htq as [-> | Hnil]; [|rewrite Hnil in Hin; destruct Hin].
    repeat split; auto.
    + eapply Hret; eauto.
    + intros fs Hfs. eapply prepare_query; eauto.
  - intros q Ht H1 H2 E0.
    destruct executeQuery_cases
      as [(cause & Hc & _) | [(_ & Hbad & _) | (_ & _ & _ & Hr)]];
      [congruence|destruct Hbad; contradiction|].
    rewrite Hr.
    destruct (er (set_listeners (connection s) (listeners (connection s) ++ [l]))
                 (sql q) (normaliseQueryValues (values q) (native (connection s)))
                 ctx q (world (final r0))) as [[out emitted] w] eqn:E.
    cbn [fst].
    exact (proj1 (pipeline_settles normaliseQueryValues cfg ctx er original s
                    q out emitted w E0 E)).
Qed.

(** ** Failures of the execution routine *)

Lemma QueryExecutionError_inj (q : Query) (error : Thrown)
    k (out : Outcome Any) k' (out' : Outcome Any) :
  (QueryExecutionError k q error out : Event) = QueryExecutionError k' q error out' ->
  k = k' /\ out = out'.
Proof. intro H. inversion H. auto. Qed.

(** A run in which the execution routine rejects. *)
Lemma executeQuery_rejected text vs q error :
  In (Execute text vs q (inl error)) (events r) ->
  exists post o,
    events r = events r0 ++
               [ListenerOn l; Execute text vs q (inl error);
                LogError error msg_execution_error; ListenerOff l] ++ post /\
    sequence (fun k => QueryExecutionError k q (classification error))
             (positions (fun x => has (queryExecutionError x)) 0 (interceptors cfg))
             post o /\
    outcome r = Threw (match o with
                       | Returned _ => classification error
                       | Threw t => t
                       end) /\
    connection (final r) = (if is_termination error
                            then set_terminated (connection s) error
                            else connection s) /\
    (forall e, In e (events r) -> is_QueryExecutionError e = true -> In e post) /\
    (Forall (fun e => hook_threw e = false) (events r) -> o = Returned tt).
Proof.
  intro Hin.
  destruct (executeQuery_executed _ _ _ _ Hin)
    as (_ & _ & _ & _ & post & o & Hev & Hseq & Hout & Hconn & _).
  exists post, o. repeat split; auto.
  - intros e He Hq. rewrite Hev in He.
    apply in_app_or in He. destruct He as [He|He].
    + destruct (prepare_confined (fun e => is_QueryExecutionError e = false)
                  cfg ctx original) with (s := s) as (_ & _ & H0).
      { intros [] H; try discriminate; reflexivity. }
      fold r0 in H0. rewrite Forall_forall in H0. apply H0 in He. congruence.
    + apply in_app_or in He. destruct He as [He|He]; [|exact He].
      simpl in He. destruct He as [<-|[<-|[<-|[<-|[]]]]]; discriminate.
  - intro Hall. eapply sequence_returns; [exact Hseq|reflexivity|].
    rewrite Hev in Hall. apply Forall_app in Hall. destruct Hall as [_ Hall].
    apply Forall_app in Hall. tauto.
Qed.

(** A [queryExecutionError] hook is called only after the execution routine
    has rejected, and with the classified error. *)
Lemma executeQuery_notified k q err out :
  In (QueryExecutionError k q err out) (events r) ->
  exists text vs error,
    In (Execute text vs q (inl error)) (events r) /\ err = classification error.
Proof.
  intro Hin.
  assert (Hpre : Forall (fun e => is_QueryExecutionError e = false) (events r0)).
  { apply (prepare_confined (fun e => is_QueryExecutionError e = false)).
    intros [] H; try discriminate; reflexivity. }
  assert (Hno : ~ In (QueryExecutionError k q err out) (events r0)).
  { intro H. rewrite Forall_forall in Hpre. apply Hpre in H. discriminate. }
  destruct executeQuery_cases as [(cause & _ & Hr) | [(_ & _ & msg & Hr) | (Ht & _ & _ & Hr)]].
  1,2: rewrite Hr in Hin; destruct Hin.
  pose proof (pipeline_cases normaliseQueryValues cfg ctx er original s) as Hcases.
  cbv zeta in Hcases. rewrite <- Hr in Hcases. fold r0 l in Hcases.
  destruct Hcases as [(t & E0 & Hr') | [(q' & res' & E0 & Hr')
    | [(q' & error & post & o & E0 & Hev & Hseq & _)
      | (q' & raw & collected & s' & E0 & _ & _ & Hev & _)]]].
  1,2: rewrite Hr' in Hin; cbn [events] in Hin; contradiction.
  - pose proof Hin as Hin'. rewrite Hev in Hin'.
    apply in_app_or in Hin'. destruct Hin' as [H|H]; [contradiction|].
    apply in_app_or in H. destruct H as [H|H].
    { simpl in H. destruct H as [H|[H|[H|[H|[]]]]]; discriminate. }
    destruct (sequence_In _ _ _ _ Hseq _ H) as (k' & out' & Heq & _).
    inversion Heq; subst.
    eexists _, _, error. split; [|reflexivity].
    rewrite Hev. apply in_or_app. right. simpl. right; left. reflexivity.
  - exfalso. rewrite Hev in Hin.
    apply in_app_or in Hin. destruct Hin as [H|H]; [contradiction|].
    apply in_app_or in H. destruct H as [H|H].
    { simpl in H. destruct H as [H|[H|[H|[]]]]; discriminate. }
    destruct (complete_confined (fun e => is_QueryExecutionError e = false) cfg ctx q'
                (raw, collected)) with (s := s') as (_ & _ & Hc').
    { intros [] He; try discriminate; reflexivity. }
    rewrite Forall_forall in Hc'. apply Hc' in H. discriminate.
Qed.

(** C1, as amended. When the execution routine rejects with [error], the
    error handed to every [queryExecutionError] hook, and thrown to the
    caller unless a hook throws, is given by the ordered table, the first
    matching row deciding: a termination error (code 57P01 or message
    [Connection terminated]) gives [BackendTerminatedError], whatever its
    code; otherwise code 57014 gives [StatementTimeoutError] when the
    message says so and [StatementCancelledError] when not, the codes 23502,
    23503, 23505 and 23514 give the four constraint violations with the
    driver's constraint name, and any other error is thrown as it is. *)
Theorem classification_first_match text vs q error :
  In (Execute text vs q (inl error)) (events r) ->
  let t := classification error in
  (forall k q' err out, In (QueryExecutionError k q' err out) (events r) -> err = t) /\
  (Forall (fun e => hook_threw e = false) (events r) -> outcome r = Threw t) /\
  (is_termination error = true -> t = BackendTerminatedError error) /\
  (is_termination error = false ->
   (code_is error "57014" = true -> is_timeout error = true ->
    t = StatementTimeoutError error) /\
   (code_is error "57014" = true -> is_timeout error = false ->
    t = StatementCancelledError error) /\
   (code_is error "23502" = true ->
    t = NotNullIntegrityConstraintViolationError error (constraint error)) /\
   (code_is error "23503" = true ->
    t = ForeignKeyIntegrityConstraintViolationError error (constraint error)) /\
   (code_is error "23505" = true ->
    t = UniqueIntegrityConstraintViolationError error (constraint error)) /\
   (code_is error "23514" = true ->
    t = CheckIntegrityConstraintViolationError error (constraint error)) /\
   (code_is error "57014" = false -> code_is error "23502" = false ->
    code_is error "23503" = false -> code_is error "23505" = false ->
    code_is error "23514" = false -> t = Raw error)).
Proof.
  intro Hin. cbv zeta.
  destruct (executeQuery_rejected _ _ _ _ Hin)
    as (post & o & Hev & Hseq & Hout & _ & Hpost & Hret).
  split; [|split; [|apply classification_rows]].
  - intros k q' err out Hq.
    apply Hpost in Hq; [|reflexivity].
    destruct (sequence_In _ _ _ _ Hseq _ Hq) as (k' & out' & Heq & _).
    now inversion Heq.
  - intro Hall. rewrite Hout, (Hret Hall). reflexivity.
Qed.

(** C2, as amended. When the execution routine rejects with a termination
    error, the connection's flag holds that error once the call is over and
    the call fails: [BackendTerminatedError] with that error is what every
    [queryExecutionError] hook is handed and what the caller gets when no
    hook throws, and when a hook throws the caller gets what it threw; and
    every later call on the connection, whatever happens in between, fails
    with [BackendTerminatedError] carrying that error and calls nothing, the
    flag staying set. *)
Theorem termination_flag_permanent text vs q error :
  In (Execute text vs q (inl error)) (events r) ->
  is_termination error = true ->
  terminated (connection (final r)) = Some error /\
  (exists t, outcome r = Threw t) /\
  (forall k q' err out,
      In (QueryExecutionError k q' err out) (events r) ->
      err = BackendTerminatedError error) /\
  (Forall (fun e => hook_threw e = false) (events r) ->
   outcome r = Threw (BackendTerminatedError error)) /\
  (forall k q' err t,
      In (QueryExecutionError k q' err (Threw t)) (events r) ->
      outcome r = Threw t) /\
  (forall calls : list Invocation,
      Forall (fun r' : Run QueryResult =>
                outcome r' = Threw (BackendTerminatedError error) /\
                events r' = [] /\
                terminated (connection (final r')) = Some error)
             (invoke_all normaliseQueryValues calls (final r))).
Proof.
  intros Hin Hterm.
  destruct (executeQuery_rejected _ _ _ _ Hin)
    as (post & o & Hev & Hseq & Hout & Hconn & Hpost & Hret).
  rewrite Hterm in Hconn.
  rewrite (classification_termination _ Hterm) in *.
  assert (Hflag : terminated (connection (final r)) = Some error).
  { rewrite Hconn. reflexivity. }
  split; [exact Hflag|]. split; [eauto|]. split; [|split; [|split]].
  - intros k q' err out Hq.
    apply Hpost in Hq; [|reflexivity].
    destruct (sequence_In _ _ _ _ Hseq _ Hq) as (k' & out' & Heq & _).
    now inversion Heq.
  - intro Hall. rewrite Hout, (Hret Hall). reflexivity.
  - intros k q' err t Hq.
    apply Hpost in Hq; [|reflexivity].
    destruct (sequence_In _ _ _ _ Hseq _ Hq) as (k' & out' & Heq & _).
    inversion Heq; subst.
    destruct (sequence_thrown_last _
                (QueryExecutionError_inj q (BackendTerminatedError error))
                _ _ _ Hseq (positions_sorted _ _ _) k' t Hq) as (-> & _).
    exact Hout.
  - intro calls. apply invoke_all_terminated. exact Hflag.
Qed.

(** C8, as amended. When the execution routine rejects, then, once the
    error is logged and classified and the listener removed, the
    [queryExecutionError] hooks are called in registration order, each with
    the classified error and each after the one before has returned, up to
    the first that throws; the call fails whatever the hooks return: with
    the classified error when they all return, with what the hook threw
    otherwise. *)
Theorem execution_error_notified text vs q error :
  In (Execute text vs q (inl error)) (events r) ->
  exists pre post o,
    events r = pre ++ [LogError error msg_execution_error; ListenerOff l] ++ post /\
    Forall (fun e => is_QueryExecutionError e = false) pre /\
    sequence (fun k => QueryExecutionError k q (classification error))
             (positions (fun x => has (queryExecutionError x)) 0 (interceptors cfg))
             post o /\
    outcome r = Threw (match o with
                       | Returned _ => classification error
                       | Threw t => t
                       end).
Proof.
  intro Hin.
  destruct (executeQuery_rejected _ _ _ _ Hin)
    as (post & o & Hev & Hseq & Hout & _ & _ & _).
  exists (events r0 ++ [ListenerOn l; Execute text vs q (inl error)]), post, o.
  repeat split; auto.
  - rewrite Hev, <- app_assoc. reflexivity.
  - apply Forall_app. split; [|repeat constructor].
    apply (prepare_confined (fun e => is_QueryExecutionError e = false)).
    intros [] H; try discriminate; reflexivity.
Qed.

(** C10. When a [queryExecutionError] hook throws, what it throws is what
    the caller gets; its call is the last one made, so the hooks registered
    after it are not called; it was called because the execution routine
    rejected, with the classified error; and the listener was removed
    before, the connection having the listeners it had. *)
Theorem throwing_error_hook_propagates k q err t :
  In (QueryExecutionError k q err (Threw t)) (events r) ->
  outcome r = Threw t /\
  (exists pre, events r = pre ++ [QueryExecutionError k q err (Threw t)] /\
               In (ListenerOff l) pre) /\
  (forall k' q' err' out',
      In (QueryExecutionError k' q' err' out') (events r) -> k' <= k) /\
  (exists text vs error,
      In (Execute text vs q (inl error)) (events r) /\ err = classification error) /\
  listeners (connection (final r)) = listeners (connection s).
Proof.
  intro Hin.
  destruct (executeQuery_notified _ _ _ _ Hin) as (text & vs & error & Hex & ->).
  destruct (executeQuery_rejected _ _ _ _ Hex)
    as (post & o & Hev & Hseq & Hout & Hconn & Hpost & _).
  pose proof (Hpost _ Hin eq_refl) as Hin'.
  destruct (sequence_thrown_last _ (QueryExecutionError_inj q (classification error))
              _ _ _ Hseq (positions_sorted _ _ _) k t Hin')
    as (-> & (pre & ->) & Hle).
  split; [exact Hout|]. split; [|split; [|split]].
  - eexists. split.
    + rewrite Hev, !app_assoc. reflexivity.
    + apply in_or_app. left. apply in_or_app. right. simpl. auto.
  - intros k' q' err' out' Hq.
    pose proof (Hpost _ Hq eq_refl) as Hq'.
    destruct (sequence_In _ _ _ _ Hseq _ Hq') as (k0 & out0 & Heq & _).
    inversion Heq; subst. eapply Hle. exact Hq'.
  - eauto.
  - rewrite Hconn. destruct (is_termination error); reflexivity.
Qed.

(** ** The rows returned *)

(** C9. After a successful execution whose result has rows, each row of the
    result the call returns is the row the execution routine gave, taken
    through every [transformRow] hook in registration order, each hook given
    what the one before returned: with hooks that are functions, the rows
    returned are the rows given, each mapped by the composition
    [gK (... (g2 (g1 row)))]. When the result has no rows, no [transformRow]
    hook is called and the result returned has none. *)
Theorem transformRow_threads_rows text vs q raw :
  In (Execute text vs q (inr raw)) (events r) ->
  let idx := positions (fun x => has (transformRow x)) 0 (interceptors cfg) in
  (rows raw = None ->
   Forall (fun e => is_TransformRow e = false) (events r) /\
   forall result, outcome r = Returned result -> rows result = None) /\
  (forall rs result,
      rows raw = Some rs -> outcome r = Returned result ->
      exists rs', rows result = Some rs' /\
                  Forall2 (threaded q (fields raw) (events r) idx) rs rs') /\
  (forall gs rs result,
      Forall2 maps_with (interceptors cfg) gs ->
      rows raw = Some rs -> outcome r = Returned result ->
      rows result = Some (map (through gs) rs)).
Proof.
  intro Hin. cbv zeta.
  destruct (executeQuery_executed _ _ _ _ Hin)
    as (_ & _ & _ & _ & collected & s' & _ & _ & Hev & Hout & _).
  cbv zeta in Hev, Hout.
  destruct (complete_rows cfg ctx q raw collected s') as (Hnone & Hsome & Hpure).
  split; [|split].
  - intro Hraw. destruct (Hnone Hraw) as (Hall & Hres). split.
    + rewrite Hev. apply Forall_app. split.
      * apply (prepare_confined (fun e => is_TransformRow e = false)).
        intros [] H; try discriminate; reflexivity.
      * apply Forall_app. split; [repeat constructor|exact Hall].
    + intros result Hr. apply Hres. now rewrite <- Hout.
  - intros rs result Hraw Hr. rewrite Hout in Hr.
    destruct (Hsome rs result Hraw Hr) as (rs' & Hrs' & Hall).
    exists rs'. split; [exact Hrs'|].
    eapply Forall2_impl; [|exact Hall].
    intros a b. apply threaded_incl. intros e He. rewrite Hev.
    apply in_or_app. right. apply in_or_app. now right.
  - intros gs rs result Hgs Hraw Hr. rewrite Hout in Hr. eauto.
Qed.

End Entry.

(** * Further properties of the routine *)

Section Further.

Variable normaliseQueryValues : list Value -> bool -> list Value.
Variable rt : Runtime.
Variable cfg : ClientConfiguration.
Variable rawSql : string.
Variable vals : list Value.
Variable inheritedQueryId : option string.
Variable er : ExecutionRoutine.
Variable s : St.

Let original : Query := {| sql := rawSql; values := vals |}.
Let ctx := make_context rt cfg (connection s) original inheritedQueryId.
Let r := executeQuery normaliseQueryValues rt cfg rawSql vals inheritedQueryId er s.
Let r0 := prepare cfg ctx original s.
Let l := closures s.

(** A call that passes the preconditions runs the hooks before the
    execution, then only calls that are none of theirs; nothing more when
    one of those hooks throws. *)
Lemma executeQuery_tail :
  terminated (connection s) = None ->
  trim rawSql <> "" -> trim rawSql <> "$1" ->
  exists tail,
    events r = events r0 ++ tail /\
    Forall (fun e => before_execution e = false) tail /\
    (forall t, outcome r0 = Threw t -> tail = [] /\ outcome r = Threw t) /\
    (tail = [] -> final r = final r0).
Proof.
  intros Ht H1 H2.
  destruct (executeQuery_cases normaliseQueryValues rt cfg rawSql vals
              inheritedQueryId er s)
    as [(cause & Hc & _) | [(_ & Hbad & _) | (_ & _ & _ & Hr)]];
    [congruence|destruct Hbad; contradiction|].
  fold r original ctx in Hr.
  pose proof (pipeline_cases normaliseQueryValues cfg ctx er original s) as Hcases.
  cbv zeta in Hcases. rewrite <- Hr in Hcases. fold r0 l in Hcases.
  destruct Hcases as [(t & E0 & Hr') | [(q' & res' & E0 & Hr')
    | [(q' & error & post & o & E0 & Hev & Hseq & _)
      | (q' & raw & collected & s' & E0 & _ & _ & Hev & _)]]].
  - exists []. rewrite Hr'. cbn [events outcome final]. rewrite app_nil_r.
    repeat split; auto; congruence.
  - exists []. rewrite Hr'. cbn [events outcome final]. rewrite app_nil_r.
    repeat split; auto; congruence.
  - eexists. split; [exact Hev|]. split; [|split; [congruence|discriminate]].
    apply Forall_app. split; [repeat constructor|].
    eapply sequence_Forall; [|exact Hseq]. reflexivity.
  - eexists. split; [exact Hev|]. split; [|split; [congruence|discriminate]].
    apply Forall_app. split; [repeat constructor|].
    apply (complete_confined (fun e => before_execution e = false)).
    intros [] He; try discriminate; reflexivity.
Qed.

(** X1. In a call that passes the preconditions, the [beforeTransformQuery]
    hooks are called first, in registration order, each handed the copy of
    the original query and each after the one before has returned; what
    they return is dropped; the first that throws ends the call, with what
    it threw. *)
Theorem beforeTransformQuery_first :
  terminated (connection s) = None ->
  trim rawSql <> "" -> trim rawSql <> "$1" ->
  exists first rest o,
    events r = first ++ rest /\
    sequence (fun k => BeforeTransformQuery k original)
             (positions (fun x => has (beforeTransformQuery x)) 0 (interceptors cfg))
             first o /\
    Forall (fun e => is_BeforeTransformQuery e = false) rest /\
    (forall t, o = Threw t -> rest = [] /\ outcome r = Threw t).
Proof.
  intros Ht H1 H2.
  destruct (executeQuery_tail Ht H1 H2) as (tail & Hev & Htail & Hthrow & _).
  assert (Htail' : Forall (fun e => is_BeforeTransformQuery e = false) tail).
  { eapply Forall_impl; [|exact Htail]. intros [] He; try discriminate; reflexivity. }
  pose proof (prepare_run cfg ctx original s) as Hrun. fold r0 in Hrun.
  pose proof (beforeTransformQuery_sequence ctx original (interceptors cfg) 0 s) as Hseq.
  set (r1 := forOf (beforeTransformQuery_body ctx original) 0 (interceptors cfg) tt s)
    in *.
  assert (H2' : Forall (fun e => is_BeforeTransformQuery e = false)
                       (events (forOf (transformQuery_body ctx) 0 (interceptors cfg)
                                      original (final r1)))).
  { apply (transformQuery_confined (fun e => is_BeforeTransformQuery e = false)).
    reflexivity. }
  destruct (outcome r1) as [[]|t] eqn:E1.
  - destruct (outcome (forOf (transformQuery_body ctx) 0 _ original (final r1)))
      as [q|t] eqn:E2.
    + cbv zeta in Hrun.
      exists (events r1), (events (forOf (transformQuery_body ctx) 0 (interceptors cfg)
                                         original (final r1)) ++
                           events (beforeQueryExecution_loop ctx q 0 (interceptors cfg)
                                     (final (forOf (transformQuery_body ctx) 0
                                               (interceptors cfg) original (final r1))))
                           ++ tail), (Returned tt).
      rewrite Hev, Hrun. cbn [events]. rewrite <- !app_assoc.
      split; [reflexivity|]. split; [exact Hseq|]. split; [|discriminate].
      repeat (apply Forall_app; split); auto.
      apply (beforeQueryExecution_confined (fun e => is_BeforeTransformQuery e = false));
        reflexivity.
    + exists (events r1), (events (forOf (transformQuery_body ctx) 0 (interceptors cfg)
                                         original (final r1)) ++ tail), (Returned tt).
      rewrite Hev, Hrun. cbn [events]. rewrite <- !app_assoc.
      split; [reflexivity|]. split; [exact Hseq|]. split; [|discriminate].
      apply Forall_app; split; auto.
  - exists (events r1), tail, (Threw t).
    rewrite Hev, Hrun. cbn [events].
    split; [reflexivity|]. split; [exact Hseq|]. split; [exact Htail'|].
    intros t' Heq. inversion Heq; subst t'. apply Hthrow. rewrite Hrun. reflexivity.
Qed.

(** X2. When a hook called before the execution ([beforeTransformQuery],
    [transformQuery] or [beforeQueryExecution]) throws, the call fails with
    what it threw; its call is the last one made: the execution routine is
    not called, no listener is attached, and no [queryExecutionError] hook
    is told; the connection is as it was. *)
Theorem early_hook_error_propagates e t :
  In e (events r) -> before_execution e = true -> thrown e = Some t ->
  outcome r = Threw t /\
  (exists pre, events r = pre ++ [e]) /\
  Forall (fun e' => touches_driver e' = false /\ is_QueryExecutionError e' = false /\
                    after_execution e' = false) (events r) /\
  connection (final r) = connection s /\
  closures (final r) = closures s.
Proof.
  intros Hin Hbefore Hthrown.
  destruct (prepare_confined
              (fun e => touches_driver e = false /\ is_QueryExecutionError e = false /\
                        after_execution e = false) cfg ctx original) with (s := s)
    as (Hc0 & Hn0 & Hev0).
  { intros [] He; try discriminate; auto. }
  fold r0 in Hc0, Hn0, Hev0.
  destruct (executeQuery_cases normaliseQueryValues rt cfg rawSql vals
              inheritedQueryId er s)
    as [(cause & _ & Hr) | [(_ & _ & msg & Hr) | (Ht & H1 & H2 & _)]].
  1,2: fold r in Hr; rewrite Hr in Hin; destruct Hin.
  destruct (executeQuery_tail Ht H1 H2) as (tail & Hev & Htail & Hthrow & Hfin).
  assert (Hin0 : In e (events r0)).
  { rewrite Hev in Hin. apply in_app_or in Hin. destruct Hin as [Hin|Hin]; [exact Hin|].
    rewrite Forall_forall in Htail. apply Htail in Hin. congruence. }
  destruct (prepare_strict cfg ctx original s e t Hin0 Hthrown) as (Hout0 & pre & Hpre).
  fold r0 in Hout0, Hpre.
  destruct (Hthrow t Hout0) as (-> & Hout).
  rewrite app_nil_r in Hev. rewrite Hev, (Hfin eq_refl).
  split; [exact Hout|]. split; [eauto|]. auto.
Qed.

(** A run in which the execution routine resolves: the call it was made
    with, the notices it emitted, and what follows. *)
Lemma executeQuery_resolved text vs q raw :
  In (Execute text vs q (inr raw)) (events r) ->
  exists emitted w,
    outcome r0 = Returned (q, None) /\
    er (set_listeners (connection s) (listeners (connection s) ++ [l]))
       text vs ctx q (world (final r0)) = (inr raw, emitted, w) /\
    let rc := complete cfg ctx q (raw, emitted)
                {| world := w; connection := connection s;
                   closures := S (closures s) |} in
    events r = events r0 ++
               [ListenerOn l; Execute text vs q (inr raw); ListenerOff l] ++ events rc /\
    outcome r = outcome rc /\
    final r = final rc.
Proof.
  intro Hin.
  destruct (executeQuery_executed normaliseQueryValues rt cfg rawSql vals
              inheritedQueryId er s text vs q (inr raw) Hin)
    as (_ & E0 & -> & -> & collected & s' & _ & _ & Hev & _).
  fold r original ctx r0 l in E0, Hev. cbv zeta in Hev.
  destruct (executeQuery_cases normaliseQueryValues rt cfg rawSql vals
              inheritedQueryId er s)
    as [(cause & _ & Hr) | [(_ & _ & msg & Hr) | (_ & _ & _ & Hr)]].
  1,2: fold r in Hr; rewrite Hr in Hin; destruct Hin.
  fold r original ctx in Hr.
  destruct (er (set_listeners (connection s) (listeners (connection s) ++ [l]))
               (sql q) (normaliseQueryValues (values q) (native (connection s)))
               ctx q (world (final r0))) as [[out emitted] w] eqn:E.
  destruct (pipeline_settles normaliseQueryValues cfg ctx er original s q out emitted w
              E0 E) as (Hin' & Hres).
  rewrite <- Hr in Hin', Hres.
  assert (Hout : out = inr raw).
  { rewrite Hev in Hin'. apply in_app_or in Hin'. destruct Hin' as [H|H].
    - destruct (prepare_confined (fun e => before_execution e = true) cfg ctx original
                  (fun _ H => H) s) as (_ & _ & H0).
      fold r0 in H0. rewrite Forall_forall in H0. apply H0 in H. discriminate.
    - apply in_app_or in H. destruct H as [H|H].
      + simpl in H. destruct H as [H|[H|[H|[]]]]; try discriminate.
        now inversion H.
      + destruct (complete_confined (fun e => after_execution e = true) cfg ctx q
                    (raw, collected) (fun _ H => H) s') as (_ & _ & Hc').
        rewrite Forall_forall in Hc'. apply Hc' in H. discriminate. }
  subst out. exists emitted, w. split; [exact E0|]. split; [reflexivity|].
  exact (Hres raw eq_refl).
Qed.

(** X3. When a hook called after a successful execution
    ([afterQueryExecution], [transformRow] or [beforeQueryResult]) throws,
    the call fails with what it threw although the statement was executed;
    its call is the last one made, no [queryExecutionError] hook is told,
    and the listener was removed before, the connection being as it was. *)
Theorem late_hook_error_propagates e t :
  In e (events r) -> after_execution e = true -> thrown e = Some t ->
  outcome r = Threw t /\
  (exists pre text vs q raw,
      events r = pre ++ [e] /\
      In (Execute text vs q (inr raw)) pre /\ In (ListenerOff l) pre) /\
  Forall (fun e' => is_QueryExecutionError e' = false) (events r) /\
  connection (final r) = connection s.
Proof.
  intros Hin Hafter Hthrown.
  destruct (executeQuery_cases normaliseQueryValues rt cfg rawSql vals
              inheritedQueryId er s)
    as [(cause & _ & Hr) | [(_ & _ & msg & Hr) | (_ & _ & _ & Hr)]].
  1,2: fold r in Hr; rewrite Hr in Hin; destruct Hin.
  fold r original ctx in Hr.
  assert (H0 : Forall (fun e => after_execution e = false /\
                                is_QueryExecutionError e = false) (events r0)).
  { apply (prepare_confined (fun e => after_execution e = false /\
                                      is_QueryExecutionError e = false)).
    intros [] H; try discriminate; auto. }
  assert (Hno : ~ In e (events r0)).
  { intro H. rewrite Forall_forall in H0. apply H0 in H. destruct H; congruence. }
  pose proof (pipeline_cases normaliseQueryValues cfg ctx er original s) as Hcases.
  cbv zeta in Hcases. rewrite <- Hr in Hcases. fold r0 l in Hcases.
  destruct Hcases as [(t' & E0 & Hr') | [(q' & res' & E0 & Hr')
    | [(q' & error & post & o & E0 & Hev & Hseq & _)
      | (q' & raw & collected & s' & E0 & Hc & _ & Hev & Hout & Hfin)]]].
  1,2: rewrite Hr' in Hin; cbn [events] in Hin; contradiction.
  - exfalso. rewrite Hev in Hin. apply in_app_or in Hin.
    destruct Hin as [H|H]; [contradiction|].
    apply in_app_or in H. destruct H as [H|H].
    + simpl in H. destruct H as [<-|[<-|[<-|[<-|[]]]]]; discriminate.
    + apply (sequence_Forall (fun e => after_execution e = false)) in Hseq;
        [|reflexivity].
      rewrite Forall_forall in Hseq. apply Hseq in H. congruence.
  - cbv zeta in Hev, Hout, Hfin.
    assert (Hin' : In e (events (complete cfg ctx q' (raw, collected) s'))).
    { rewrite Hev in Hin. apply in_app_or in Hin.
      destruct Hin as [H|H]; [contradiction|].
      apply in_app_or in H. destruct H as [H|H]; [|exact H].
      simpl in H. destruct H as [<-|[<-|[<-|[]]]]; discriminate. }
    destruct (complete_strict cfg ctx q' (raw, collected) s' e t Hin' Hthrown)
      as (Hout' & pre & Hpre).
    destruct (complete_confined (fun e => is_QueryExecutionError e = false) cfg ctx q'
                (raw, collected)) with (s := s') as (Hc' & _ & Hq').
    { intros [] He; try discriminate; reflexivity. }
    split; [congruence|]. split; [|split].
    + eexists _, _, _, _, raw. rewrite Hev, Hpre, !app_assoc.
      split; [reflexivity|].
      split; apply in_or_app; left; apply in_or_app; right; simpl; auto.
    + rewrite Hev. apply Forall_app. split.
      * eapply Forall_impl; [|exact H0]. simpl; tauto.
      * apply Forall_app. split; [repeat constructor|exact Hq'].
    + rewrite Hfin, Hc', Hc. reflexivity.
Qed.

(** X4. After a successful execution, the notices of the result are the
    ones the driver emitted while the execution routine ran, called with
    the listener attached, whatever the routine's own result said of
    notices: they are on the result every [afterQueryExecution] hook is
    handed, with the routine's rows untransformed, and on the result the
    call returns, whose fields are the routine's. *)
Theorem notices_collected text vs q raw :
  In (Execute text vs q (inr raw)) (events r) ->
  exists w emitted w',
    er (set_listeners (connection s) (listeners (connection s) ++ [l]))
       text vs ctx q w = (inr raw, emitted, w') /\
    (forall k q' result out,
        In (AfterQueryExecution k q' result out) (events r) ->
        result = {| rows := rows raw; fields := fields raw; notices := emitted |}) /\
    (forall result,
        outcome r = Returned result ->
        notices result = emitted /\ fields result = fields raw).
Proof.
  intro Hin.
  destruct (executeQuery_resolved _ _ _ _ Hin) as (emitted & w & E0 & E & Hev & Hout & _).
  cbv zeta in Hev, Hout.
  exists (world (final r0)), emitted, w. split; [exact E|].
  set (s3 := {| world := w; connection := connection s; closures := S (closures s) |})
    in *.
  destruct (complete_order cfg ctx q raw emitted s3)
    as (ea & et & eb & oa & Hc & Hseq & Ht & Hb & Hret).
  split.
  - intros k q' result out Ha. rewrite Hev in Ha.
    apply in_app_or in Ha. destruct Ha as [H|H].
    { destruct (prepare_confined (fun e => before_execution e = true) cfg ctx original
                  (fun _ H => H) s) as (_ & _ & H0).
      fold r0 in H0. rewrite Forall_forall in H0. apply H0 in H. discriminate. }
    apply in_app_or in H. destruct H as [H|H].
    { simpl in H. destruct H as [H|[H|[H|[]]]]; discriminate. }
    rewrite Hc in H. apply in_app_or in H. destruct H as [H|H].
    + destruct (sequence_In _ _ _ _ Hseq _ H) as (k' & out' & Heq & _).
      now inversion Heq.
    + apply in_app_or in H. destruct H as [H|H].
      * rewrite Forall_forall in Ht. apply Ht in H. discriminate.
      * rewrite Forall_forall in Hb. apply Hb in H. discriminate.
  - intros result Hres. rewrite Hout in Hres.
    destruct (Hret result Hres) as (_ & _ & Hf & Hn). auto.
Qed.

(** X5. After a successful execution, once the listener is removed, the
    [afterQueryExecution] hooks are called in registration order, then the
    [transformRow] hooks, then the [beforeQueryResult] hooks in
    registration order; and the result a call returns is the very result
    every [beforeQueryResult] hook was handed, all the hooks having
    returned. *)
Theorem result_hooks_ordered text vs q raw :
  In (Execute text vs q (inr raw)) (events r) ->
  exists pre given ea et eb oa,
    events r = pre ++ [ListenerOff l] ++ ea ++ et ++ eb /\
    Forall (fun e => after_execution e = false) pre /\
    rows given = rows raw /\
    sequence (fun k => AfterQueryExecution k q given)
             (positions (fun x => has (afterQueryExecution x)) 0 (interceptors cfg))
             ea oa /\
    Forall (fun e => is_TransformRow e = true) et /\
    Forall (fun e => is_BeforeQueryResult e = true) eb /\
    (forall result,
        outcome r = Returned result ->
        oa = Returned tt /\
        sequence (fun k => BeforeQueryResult k q result)
                 (positions (fun x => has (beforeQueryResult x)) 0 (interceptors cfg))
                 eb (Returned tt)).
Proof.
  intro Hin.
  destruct (executeQuery_resolved _ _ _ _ Hin) as (emitted & w & E0 & E & Hev & Hout & _).
  cbv zeta in Hev, Hout.
  set (s3 := {| world := w; connection := connection s; closures := S (closures s) |})
    in *.
  destruct (complete_order cfg ctx q raw emitted s3)
    as (ea & et & eb & oa & Hc & Hseq & Ht & Hb & Hret).
  exists (events r0 ++ [ListenerOn l; Execute text vs q (inr raw)]),
         {| rows := rows raw; fields := fields raw; notices := emitted |},
         ea, et, eb, oa.
  split; [rewrite Hev, Hc, <- !app_assoc; reflexivity|].
  split.
  { apply Forall_app. split; [|repeat constructor].
    apply (prepare_confined (fun e => after_execution e = false)).
    intros [] H; try discriminate; reflexivity. }
  split; [reflexivity|]. split; [exact Hseq|]. split; [exact Ht|]. split; [exact Hb|].
  intros result Hres. rewrite Hout in Hres.
  destruct (Hret result Hres) as (Hoa & Hbs & _). auto.
Qed.

(** X6. A call changes nothing of the connection but its termination
    flag, and sets that flag when and only when the execution routine has
    rejected with a termination error, to that error: after a rejection
    with a termination error the connection is the one before with the flag
    set to the error; after a rejection with another error, and after a
    call in which the routine did not reject, the connection is as it
    was. *)
Theorem flag_set_by_termination_only :
  (forall text vs q error,
      In (Execute text vs q (inl error)) (events r) ->
      connection (final r) = (if is_termination error
                              then set_terminated (connection s) error
                              else connection s)) /\
  ((forall text vs q error, ~ In (Execute text vs q (inl error)) (events r)) ->
   connection (final r) = connection s).
Proof.
  split.
  - intros text vs q error Hin.
    destruct (executeQuery_rejected normaliseQueryValues rt cfg rawSql vals
                inheritedQueryId er s text vs q error Hin)
      as (post & o & _ & _ & _ & Hconn & _).
    exact Hconn.
  - intro Hnone.
    destruct (prepare_confined (fun _ => True) cfg ctx original (fun _ _ => I) s)
      as (Hc0 & _ & _). fold r0 in Hc0.
    destruct (executeQuery_cases normaliseQueryValues rt cfg rawSql vals
                inheritedQueryId er s)
      as [(cause & _ & Hr) | [(_ & _ & msg & Hr) | (_ & _ & _ & Hr)]].
    1,2: fold r in Hr; rewrite Hr; reflexivity.
    fold r original ctx in Hr.
    pose proof (pipeline_cases normaliseQueryValues cfg ctx er original s) as Hcases.
    cbv zeta in Hcases. rewrite <- Hr in Hcases. fold r0 l in Hcases.
    destruct Hcases as [(t' & _ & Hr') | [(q' & res' & _ & Hr')
      | [(q' & error & post & o & _ & Hev & _)
        | (q' & raw & collected & s' & _ & Hc & _ & _ & _ & Hfin)]]].
    1,2: rewrite Hr'; cbn [final]; exact Hc0.
    + exfalso. eapply Hnone. rewrite Hev. apply in_or_app. right. simpl. eauto.
    + cbv zeta in Hfin.
      destruct (complete_confined (fun _ => True) cfg ctx q' (raw, collected)
                  (fun _ _ => I) s') as (Hc' & _ & _).
      rewrite Hfin, Hc', Hc. reflexivity.
Qed.

(** X7. An error is logged exactly when the execution routine rejects, and
    what is logged is the driver's error as the routine gave it, not the
    classified one. *)
Theorem driver_error_logged error msg :
  In (LogError error msg) (events r) <->
  msg = msg_execution_error /\
  exists text vs q, In (Execute text vs q (inl error)) (events r).
Proof.
  split.
  - intro Hin.
    destruct (executeQuery_cases normaliseQueryValues rt cfg rawSql vals
                inheritedQueryId er s)
      as [(cause & _ & Hr) | [(_ & _ & m & Hr) | (_ & _ & _ & Hr)]].
    1,2: fold r in Hr; rewrite Hr in Hin; destruct Hin.
    fold r original ctx in Hr.
    assert (Hno : ~ In (LogError error msg) (events r0)).
    { intro H.
      destruct (prepare_confined (fun e => before_execution e = true) cfg ctx original
                  (fun _ H => H) s) as (_ & _ & H0).
      fold r0 in H0. rewrite Forall_forall in H0. apply H0 in H. discriminate. }
    pose proof (pipeline_cases normaliseQueryValues cfg ctx er original s) as Hcases.
    cbv zeta in Hcases. rewrite <- Hr in Hcases. fold r0 l in Hcases.
    destruct Hcases as [(t' & _ & Hr') | [(q' & res' & _ & Hr')
      | [(q' & error' & post & o & _ & Hev & Hseq & _)
        | (q' & raw & collected & s' & _ & _ & _ & Hev & _)]]].
    1,2: rewrite Hr' in Hin; cbn [events] in Hin; contradiction.
    + pose proof Hin as Hin'. rewrite Hev in Hin'. apply in_app_or in Hin'.
      destruct Hin' as [H|H]; [contradiction|].
      apply in_app_or in H. destruct H as [H|H].
      * simpl in H. destruct H as [H|[H|[H|[H|[]]]]]; try discriminate.
        inversion H; subst. split; [reflexivity|].
        eexists _, _, q'. rewrite Hev. apply in_or_app. right. simpl. auto.
      * apply (sequence_Forall (fun e => is_QueryExecutionError e = true)) in Hseq;
          [|reflexivity].
        rewrite Forall_forall in Hseq. apply Hseq in H. discriminate.
    + exfalso. rewrite Hev in Hin. apply in_app_or in Hin.
      destruct Hin as [H|H]; [contradiction|].
      apply in_app_or in H. destruct H as [H|H].
      * simpl in H. destruct H as [H|[H|[H|[]]]]; discriminate.
      * destruct (complete_confined (fun e => after_execution e = true) cfg ctx q'
                    (raw, collected) (fun _ H => H) s') as (_ & _ & Hc').
        rewrite Forall_forall in Hc'. apply Hc' in H. discriminate.
  - intros (-> & text & vs & q & Hin).
    destruct (executeQuery_rejected normaliseQueryValues rt cfg rawSql vals
                inheritedQueryId er s text vs q error Hin) as (post & o & Hev & _).
    fold r r0 l in Hev. rewrite Hev. apply in_or_app. right. simpl. auto.
Qed.

(** X8. In a call that reaches the execution routine, every hook called
    once the query is transformed ([beforeQueryExecution],
    [queryExecutionError], [afterQueryExecution], [transformRow],
    [beforeQueryResult]) is handed the very query the routine is handed,
    and every [beforeTransformQuery] hook the copy of the original. *)
Theorem hooks_share_query text vs q out :
  In (Execute text vs q out) (events r) ->
  forall e, In e (events r) ->
    (after_transform e = true -> query_of e = Some q) /\
    (is_BeforeTransformQuery e = true -> query_of e = Some original).
Proof.
  intros Hin e He.
  destruct (executeQuery_executed normaliseQueryValues rt cfg rawSql vals
              inheritedQueryId er s text vs q out Hin)
    as (_ & E0 & _ & _ & Hshape).
  fold r original ctx r0 l in E0, Hshape.
  pose proof (prepare_queries cfg ctx original s q None E0) as H0. fold r0 in H0.
  rewrite Forall_forall in H0.
  destruct out as [error|raw].
  - destruct Hshape as (post & o & Hev & Hseq & _).
    rewrite Hev in He. apply in_app_or in He. destruct He as [H|H]; [auto|].
    apply in_app_or in H. destruct H as [H|H].
    + simpl in H. destruct H as [<-|[<-|[<-|[<-|[]]]]]; split; discriminate.
    + destruct (sequence_In _ _ _ _ Hseq _ H) as (k & o' & -> & _).
      split; [reflexivity|discriminate].
  - destruct Hshape as (collected & s' & _ & _ & Hev & _). cbv zeta in Hev.
    rewrite Hev in He. apply in_app_or in He. destruct He as [H|H]; [auto|].
    apply in_app_or in H. destruct H as [H|H].
    + simpl in H. destruct H as [<-|[<-|[<-|[]]]]; split; discriminate.
    + pose proof (complete_query cfg ctx q (raw, collected) s') as Hc.
      rewrite Forall_forall in Hc. destruct (Hc _ H) as (Hq & Hb).
      split; [auto|congruence].
Qed.

(** X9. When the execution routine rejects with [error], the error every
    [queryExecutionError] hook is handed, and the one the caller gets when
    no hook throws, carries [error] itself as its original error, whichever
    kind it is classified as. *)
Theorem classified_error_keeps_cause text vs q error :
  In (Execute text vs q (inl error)) (events r) ->
  (forall k q' err out,
      In (QueryExecutionError k q' err out) (events r) ->
      original_error err = Some error) /\
  (Forall (fun e => hook_threw e = false) (events r) ->
   exists t, outcome r = Threw t /\ original_error t = Some error).
Proof.
  intro Hin.
  destruct (executeQuery_rejected normaliseQueryValues rt cfg rawSql vals
              inheritedQueryId er s text vs q error Hin)
    as (post & o & Hev & Hseq & Hout & _ & Hpost & Hret).
  fold r r0 l in Hev, Hout, Hpost, Hret.
  split.
  - intros k q' err out Hq. apply Hpost in Hq; [|reflexivity].
    destruct (sequence_In _ _ _ _ Hseq _ Hq) as (k' & out' & Heq & _).
    inversion Heq; subst. apply classification_original.
  - intro Hall. exists (classification error).
    rewrite Hout, (Hret Hall). split; [reflexivity|apply classification_original].
Qed.

(** X11. The execution routine is called only once every interceptor's
    [beforeQueryExecution] hook has been called, in registration order,
    with the query to execute, and has returned no result: those calls all
    come before the call of the routine, and none comes after. *)
Theorem execution_after_all_declined text vs q out :
  In (Execute text vs q out) (events r) ->
  exists pre post,
    events r = pre ++ Execute text vs q out :: post /\
    filter is_BeforeQueryExecution pre =
    map (fun k => BeforeQueryExecution k q (Returned None))
        (positions (fun x => has (beforeQueryExecution x)) 0 (interceptors cfg)) /\
    Forall (fun e => is_BeforeQueryExecution e = false) post.
Proof.
  intro Hin.
  destruct (executeQuery_executed normaliseQueryValues rt cfg rawSql vals
              inheritedQueryId er s text vs q out Hin)
    as (Ht & E0 & _ & _ & Hshape).
  fold r original ctx r0 l in E0, Hshape.
  pose proof (prepare_declined cfg ctx original s q E0) as Hdeclined. fold r0 in Hdeclined.
  assert (Hpre : filter is_BeforeQueryExecution (events r0 ++ [ListenerOn l]) =
                 map (fun k => BeforeQueryExecution k q (Returned None))
                     (positions (fun x => has (beforeQueryExecution x)) 0
                                (interceptors cfg))).
  { rewrite filter_app. cbn [filter is_BeforeQueryExecution].
    now rewrite app_nil_r. }
  destruct out as [error|raw].
  - destruct Hshape as (post & o & Hev & Hseq & _).
    exists (events r0 ++ [ListenerOn l]),
           ([LogError error msg_execution_error; ListenerOff l] ++ post).
    split; [rewrite Hev, <- app_assoc; reflexivity|]. split; [exact Hpre|].
    apply Forall_app. split; [repeat constructor|].
    eapply sequence_Forall; [|exact Hseq]. reflexivity.
  - destruct Hshape as (collected & s' & _ & _ & Hev & _). cbv zeta in Hev.
    exists (events r0 ++ [ListenerOn l]),
           ([ListenerOff l] ++ events (complete cfg ctx q (raw, collected) s')).
    split; [rewrite Hev, <- app_assoc; reflexivity|]. split; [exact Hpre|].
    apply Forall_app. split; [repeat constructor|].
    apply (complete_confined (fun e => is_BeforeQueryExecution e = false)).
    intros [] He; try discriminate; reflexivity.
Qed.

End Further.

(** X10. Whatever calls are made one after the other on a connection, and
    however each of them ends, the connection has after each the listeners
    it had at the start: no call leaves its listener behind. *)
Theorem invoke_all_keeps_listeners
    (normaliseQueryValues : list Value -> bool -> list Value)
    (calls : list Invocation) :
  forall s : St,
    Forall (fun r' : Run QueryResult =>
              listeners (connection (final r')) = listeners (connection s))
           (invoke_all normaliseQueryValues calls s).
Proof.
  induction calls as [|c rest IH]; intro s; cbn [invoke_all]; [constructor|].
  cbv zeta.
  set (s' := {| world := inv_between c (world s); connection := connection s;
                closures := closures s |}).
  destruct (executeQuery_keeps_listeners normaliseQueryValues (inv_runtime c)
              (inv_configuration c) (inv_rawSql c) (inv_values c)
              (inv_inheritedQueryId c) (inv_executionRoutine c) s') as (Hl & _).
  constructor; [exact Hl|].
  eapply Forall_impl; [|apply IH]. intros r' Hr'. cbv beta in *.
  rewrite Hr', Hl. reflexivity.
Qed.

End Proofs.

(** * The properties on the example configuration *)

Import Example.

Example trim_binding : trim "  $1 " = "$1".
Proof. reflexivity. Qed.

Example trim_blank : trim (String (ascii_of_nat 9) (String (ascii_of_nat 10) " ")) = "".
Proof. reflexivity. Qed.

Example includes_timeout :
  includes "ERROR: canceling statement due to statement timeout"
           "canceling statement due to statement timeout" = true.
Proof. reflexivity. Qed.

(** C4 on a connection whose flag holds [shutdown]. *)
Lemma terminated_connection_rejected_witness :
  terminated (connection start_terminated) = Some shutdown /\
  run [comment; observer] select resolves start_terminated =
  {| outcome := Threw (BackendTerminatedError shutdown);
     final := start_terminated; events := [] |}.
Proof.
  split; [reflexivity|].
  apply (terminated_connection_rejected normalise runtime
           (configuration [comment; observer]) select [] None resolves
           start_terminated shutdown).
  reflexivity.
Defined.

(** C3, as amended, on the SQL [  $1 ] and an open connection. *)
Lemma invalid_input_rejected_witness :
  (trim "  $1 " = "" \/ trim "  $1 " = "$1") /\
  events (run [comment] "  $1 " resolves start) = [] /\
  final (run [comment] "  $1 " resolves start) = start /\
  exists msg, outcome (run [comment] "  $1 " resolves start)
              = Threw (InvalidInputError msg).
Proof.
  assert (H : trim "  $1 " = "" \/ trim "  $1 " = "$1") by (right; reflexivity).
  split; [exact H|].
  exact (invalid_input_rejected normalise runtime (configuration [comment])
           "  $1 " [] None resolves start H).
Defined.

(** C3 as stated fails: on a connection whose flag is set, the empty SQL is
    answered with [BackendTerminatedError], not [InvalidInputError]. *)
Lemma invalid_input_on_terminated_connection :
  trim "" = "" /\
  outcome (run [] "" resolves start_terminated)
  = Threw (BackendTerminatedError shutdown) /\
  ~ (exists msg, outcome (run [] "" resolves start_terminated)
                 = Threw (InvalidInputError msg)).
Proof.
  split; [reflexivity|]. split; [reflexivity|].
  intros (msg & H). vm_compute in H. discriminate H.
Qed.

(** C5 with a cache registered between two [transformQuery] hooks. *)
Lemma beforeQueryExecution_short_circuits_witness :
  In (BeforeQueryExecution 1 select_app (Returned (Some cached)))
     (events (run [comment; cache; limit; exclaim] select resolves start)) /\
  outcome (run [comment; cache; limit; exclaim] select resolves start)
  = Returned cached /\
  Forall (fun e => touches_driver e = false /\ after_execution e = false /\
                   is_QueryExecutionError e = false)
         (events (run [comment; cache; limit; exclaim] select resolves start)).
Proof.
  assert (H : In (BeforeQueryExecution 1 select_app (Returned (Some cached)))
                 (events (run [comment; cache; limit; exclaim] select resolves start))).
  { vm_compute. auto 10. }
  split; [exact H|].
  destruct (beforeQueryExecution_short_circuits normalise runtime
              (configuration [comment; cache; limit; exclaim]) select [] None
              resolves start 1 select_app cached H) as (Hout & _ & Hall & _).
  split; [exact Hout|exact Hall].
Defined.


(** C7 with two [transformQuery] hooks: the execution routine is called,
    and it is given what [limit] made of what [comment] made of the
    original. *)
Lemma transformQuery_composes_witness :
  terminated (connection start) = None /\
  trim select <> "" /\ trim select <> "$1" /\
  In (Execute "/* app */ SELECT name FROM users LIMIT 1" [] select_app (inr two_rows))
     (events (run [comment; limit; exclaim; bracket] select resolves start)) /\
  rewrites [0; 1] select_raw
           (filter is_TransformQuery
                   (events (run [comment; limit; exclaim; bracket] select resolves start)))
           (Returned select_app).
Proof.
  assert (H1 : trim select <> "") by (vm_compute; discriminate).
  assert (H2 : trim select <> "$1") by (vm_compute; discriminate).
  destruct (transformQuery_composes normalise runtime
              (configuration [comment; limit; exclaim; bracket]) select [] None
              resolves start) as (_ & Hgiven & Hcalled).
  pose proof (Hcalled select_app eq_refl H1 H2 eq_refl) as Hin.
  split; [reflexivity|]. split; [exact H1|]. split; [exact H2|].
  split; [exact Hin|].
  exact (proj1 (Hgiven _ _ _ _ Hin)).
Defined.

(** The functions the hooks of the example compute. *)
Example example_functions :
  Forall2 rewrites_with [comment; limit; exclaim; bracket]
          [ (fun q => {| sql := "/* app */ " ++ sql q; values := values q |});
            (fun q => {| sql := sql q ++ " LIMIT 1"; values := values q |});
            (fun q => q); (fun q => q) ] /\
  Forall2 maps_with [comment; limit; exclaim; bracket]
          [ (fun row => row); (fun row => row);
            (fun row => row ++ "!"); (fun row => "[" ++ row ++ "]") ]%string.
Proof. split; repeat constructor. Qed.

(** C1 as stated fails: the cancellation code with the message of a closed
    transport is classified as a termination, not as a cancellation. *)
Lemma cancellation_code_on_closed_transport :
  code_is closed_transport "57014" = true /\
  is_timeout closed_transport = false /\
  outcome (run [observer] select (rejects closed_transport) start)
  = Threw (BackendTerminatedError closed_transport) /\
  outcome (run [observer] select (rejects closed_transport) start)
  <> Threw (StatementCancelledError closed_transport).
Proof.
  repeat split; try reflexivity.
  intro H. vm_compute in H. discriminate H.
Qed.

(** C1, as amended, on a duplicate key. *)
Lemma classification_first_match_witness :
  In (Execute select [] select_raw (inl duplicate))
     (events (run [observer] select (rejects duplicate) start)) /\
  outcome (run [observer] select (rejects duplicate) start)
  = Threw (UniqueIntegrityConstraintViolationError duplicate (Some "users_email_key")).
Proof.
  assert (H : In (Execute select [] select_raw (inl duplicate))
                 (events (run [observer] select (rejects duplicate) start))).
  { vm_compute. auto 10. }
  split; [exact H|].
  destruct (classification_first_match normalise runtime (configuration [observer])
              select [] None (rejects duplicate) start _ _ _ _ H)
    as (_ & Hout & _ & Hrows).
  destruct (Hrows eq_refl) as (_ & _ & _ & _ & Hunique & _).
  assert (Hall : Forall (fun e => hook_threw e = false)
                        (events (run [observer] select (rejects duplicate) start))).
  { vm_compute. repeat constructor. }
  exact (eq_trans (Hout Hall) (f_equal Threw (Hunique eq_refl))).
Defined.

(** C2 as stated fails: with a [queryExecutionError] hook that throws, the
    flag is set but the caller gets what the hook threw, not
    [BackendTerminatedError]. *)
Lemma throwing_error_hook_hides_termination :
  In (Execute select [] select_raw (inl shutdown))
     (events (run [faulty] select (rejects shutdown) start)) /\
  is_termination shutdown = true /\
  terminated (connection (final (run [faulty] select (rejects shutdown) start)))
  = Some shutdown /\
  outcome (run [faulty] select (rejects shutdown) start) = Threw (Raw boom) /\
  outcome (run [faulty] select (rejects shutdown) start)
  <> Threw (BackendTerminatedError shutdown).
Proof.
  split; [vm_compute; auto 10|]. repeat split; try reflexivity.
  intro H. vm_compute in H. discriminate H.
Qed.

(** C2, as amended, on a shutdown of the backend, followed by two calls. *)
Lemma termination_flag_permanent_witness :
  In (Execute select [] select_raw (inl shutdown))
     (events (run [observer] select (rejects shutdown) start)) /\
  is_termination shutdown = true /\
  terminated (connection (final (run [observer] select (rejects shutdown) start)))
  = Some shutdown /\
  outcome (run [observer] select (rejects shutdown) start)
  = Threw (BackendTerminatedError shutdown) /\
  Forall (fun r' => outcome r' = Threw (BackendTerminatedError shutdown) /\
                    events r' = [] /\
                    terminated (connection (final r')) = Some shutdown)
         (invoke_all normalise later
                     (final (run [observer] select (rejects shutdown) start))).
Proof.
  assert (H : In (Execute select [] select_raw (inl shutdown))
                 (events (run [observer] select (rejects shutdown) start))).
  { vm_compute. auto 10. }
  split; [exact H|]. split; [reflexivity|].
  destruct (termination_flag_permanent normalise runtime (configuration [observer])
              select [] None (rejects shutdown) start _ _ _ _ H eq_refl)
    as (Hflag & _ & _ & Hout & _ & Hlater).
  split; [exact Hflag|]. split; [|exact (Hlater later)].
  apply Hout. vm_compute. repeat constructor.
Defined.

(** C8 as stated fails: with a hook that throws registered first, the hook
    registered after it is not called and the caller does not get the
    classified error. *)
Lemma throwing_error_hook_replaces_error :
  In (Execute select [] select_raw (inl duplicate))
     (events (run [faulty; observer] select (rejects duplicate) start)) /\
  has (queryExecutionError observer) = true /\
  (forall q err out,
      ~ In (QueryExecutionError 1 q err out)
           (events (run [faulty; observer] select (rejects duplicate) start))) /\
  outcome (run [faulty; observer] select (rejects duplicate) start)
  = Threw (Raw boom) /\
  outcome (run [faulty; observer] select (rejects duplicate) start)
  <> Threw (classification duplicate).
Proof.
  split; [vm_compute; auto 10|]. split; [reflexivity|]. split; [|split].
  - intros q err out H. vm_compute in H.
    repeat (destruct H as [H|H]; [discriminate H|]). exact H.
  - reflexivity.
  - intro H. vm_compute in H. discriminate H.
Qed.

(** C8, as amended, with two hooks that return. *)
Lemma execution_error_notified_witness :
  In (Execute select [] select_raw (inl duplicate))
     (events (run [observer; observer] select (rejects duplicate) start)) /\
  exists pre post o,
    events (run [observer; observer] select (rejects duplicate) start)
    = (pre ++ [LogError duplicate msg_execution_error; ListenerOff 1] ++ post)%list /\
    Forall (fun e => is_QueryExecutionError e = false) pre /\
    sequence (fun k => QueryExecutionError k select_raw (classification duplicate))
             [0; 1] post o /\
    outcome (run [observer; observer] select (rejects duplicate) start)
    = Threw (match o with
             | Returned _ => classification duplicate
             | Threw t => t
             end).
Proof.
  assert (H : In (Execute select [] select_raw (inl duplicate))
                 (events (run [observer; observer] select (rejects duplicate) start))).
  { vm_compute. auto 10. }
  split; [exact H|].
  exact (execution_error_notified normalise runtime (configuration [observer; observer])
           select [] None (rejects duplicate) start _ _ _ _ H).
Defined.

(** C10 with a hook that throws registered before one that returns. *)
Lemma throwing_error_hook_propagates_witness :
  In (QueryExecutionError 0 select_raw (classification duplicate) (Threw (Raw boom)))
     (events (run [faulty; observer] select (rejects duplicate) start)) /\
  outcome (run [faulty; observer] select (rejects duplicate) start) = Threw (Raw boom) /\
  (forall k' q' err' out',
      In (QueryExecutionError k' q' err' out')
         (events (run [faulty; observer] select (rejects duplicate) start)) ->
      k' <= 0) /\
  listeners (connection (final (run [faulty; observer] select (rejects duplicate) start)))
  = [0].
Proof.
  assert (H : In (QueryExecutionError 0 select_raw (classification duplicate)
                    (Threw (Raw boom)))
                 (events (run [faulty; observer] select (rejects duplicate) start))).
  { vm_compute. auto 10. }
  split; [exact H|].
  destruct (throwing_error_hook_propagates normalise runtime
              (configuration [faulty; observer]) select [] None (rejects duplicate)
              start _ _ _ _ H) as (Hout & _ & Hle & _ & Hl).
  split; [exact Hout|]. split; [exact Hle|exact Hl].
Defined.

(** C9 with two [transformRow] hooks: each row returned is the driver's row
    marked by [exclaim], then put in brackets by [bracket]. *)
Lemma transformRow_threads_rows_witness :
  In (Execute (sql select_app) [] select_app (inr two_rows))
     (events (run [comment; limit; exclaim; bracket] select resolves start)) /\
  outcome (run [comment; limit; exclaim; bracket] select resolves start)
  = Returned marked_rows /\
  exists rs',
    rows marked_rows = Some rs' /\
    Forall2 (threaded select_app (Some ["name"])
               (events (run [comment; limit; exclaim; bracket] select resolves start))
               [2; 3])
            ["a"; "b"] rs'.
Proof.
  assert (H : In (Execute (sql select_app) [] select_app (inr two_rows))
                 (events (run [comment; limit; exclaim; bracket] select resolves start))).
  { vm_compute. auto 10. }
  assert (Hout : outcome (run [comment; limit; exclaim; bracket] select resolves start)
                 = Returned marked_rows) by reflexivity.
  split; [exact H|]. split; [exact Hout|].
  destruct (transformRow_threads_rows normalise runtime
              (configuration [comment; limit; exclaim; bracket]) select [] None
              resolves start _ _ _ _ H) as (_ & Hsome & _).
  exact (Hsome ["a"; "b"] marked_rows eq_refl Hout).
Defined.

(** * The further properties on the example configuration *)

(** X1 with two tracing hooks around a [transformQuery] hook: both are
    handed the original query, before the query is transformed. *)
Lemma beforeTransformQuery_first_witness :
  terminated (connection start) = None /\
  trim select <> "" /\ trim select <> "$1" /\
  exists first rest o,
    events (run [tracer; comment; tracer] select resolves start) = (first ++ rest)%list /\
    sequence (fun k => BeforeTransformQuery k select_raw) [0; 2] first o /\
    Forall (fun e => is_BeforeTransformQuery e = false) rest /\
    (forall t, o = Threw t ->
               rest = [] /\
               outcome (run [tracer; comment; tracer] select resolves start) = Threw t).
Proof.
  assert (H1 : trim select <> "") by (vm_compute; discriminate).
  assert (H2 : trim select <> "$1") by (vm_compute; discriminate).
  split; [reflexivity|]. split; [exact H1|]. split; [exact H2|].
  exact (beforeTransformQuery_first normalise runtime
           (configuration [tracer; comment; tracer]) select [] None resolves start
           eq_refl H1 H2).
Defined.

(** X2 with a [transformQuery] hook that throws after one that returns. *)
Lemma early_hook_error_propagates_witness :
  In (TransformQuery 1 select_commented (Threw (Raw boom)))
     (events (run [comment; broken; observer] select resolves start)) /\
  outcome (run [comment; broken; observer] select resolves start) = Threw (Raw boom) /\
  Forall (fun e' => touches_driver e' = false /\ is_QueryExecutionError e' = false /\
                    after_execution e' = false)
         (events (run [comment; broken; observer] select resolves start)) /\
  connection (final (run [comment; broken; observer] select resolves start))
  = open_connection.
Proof.
  assert (H : In (TransformQuery 1 select_commented (Threw (Raw boom)))
                 (events (run [comment; broken; observer] select resolves start))).
  { vm_compute. auto 10. }
  split; [exact H|].
  destruct (early_hook_error_propagates normalise runtime
              (configuration [comment; broken; observer]) select [] None resolves start
              _ (Raw boom) H eq_refl eq_refl) as (Hout & _ & Hall & Hc & _).
  split; [exact Hout|]. split; [exact Hall|exact Hc].
Defined.

(** X3 with a [beforeQueryResult] hook that throws: the statement was
    executed, yet the call fails and the error hook is not told. *)
Lemma late_hook_error_propagates_witness :
  In (BeforeQueryResult 1 select_raw noticed_rows (Threw (Raw boom)))
     (events (run [auditor; picky; observer] select resolves start)) /\
  outcome (run [auditor; picky; observer] select resolves start) = Threw (Raw boom) /\
  Forall (fun e' => is_QueryExecutionError e' = false)
         (events (run [auditor; picky; observer] select resolves start)) /\
  connection (final (run [auditor; picky; observer] select resolves start))
  = open_connection.
Proof.
  assert (H : In (BeforeQueryResult 1 select_raw noticed_rows (Threw (Raw boom)))
                 (events (run [auditor; picky; observer] select resolves start))).
  { vm_compute. auto 10. }
  split; [exact H|].
  destruct (late_hook_error_propagates normalise runtime
              (configuration [auditor; picky; observer]) select [] None resolves start
              _ (Raw boom) H eq_refl eq_refl) as (Hout & _ & Hall & Hc).
  split; [exact Hout|]. split; [exact Hall|exact Hc].
Defined.

(** X4 on a routine whose result says nothing of notices while the driver
    emits one. *)
Lemma notices_collected_witness :
  In (Execute select [] select_raw (inr two_rows))
     (events (run [auditor] select resolves start)) /\
  outcome (run [auditor] select resolves start) = Returned noticed_rows /\
  exists w emitted w',
    resolves (set_listeners open_connection [0; 1]) select []
             (make_context runtime (configuration [auditor]) open_connection
                           select_raw None)
             select_raw w = (inr two_rows, emitted, w') /\
    notices noticed_rows = emitted.
Proof.
  assert (H : In (Execute select [] select_raw (inr two_rows))
                 (events (run [auditor] select resolves start))).
  { vm_compute. auto 10. }
  assert (Hout : outcome (run [auditor] select resolves start) = Returned noticed_rows)
    by reflexivity.
  split; [exact H|]. split; [exact Hout|].
  destruct (notices_collected normalise runtime (configuration [auditor]) select []
              None resolves start _ _ _ _ H) as (w & emitted & w' & E & _ & Hres).
  exists w, emitted, w'. split; [exact E|].
  exact (proj1 (Hres noticed_rows Hout)).
Defined.

(** X5 with one hook of each kind, registered in the reverse of the order
    in which they are called. *)
Lemma result_hooks_ordered_witness :
  In (Execute select [] select_raw (inr two_rows))
     (events (run [inspector; exclaim; auditor] select resolves start)) /\
  exists pre given ea et eb oa,
    events (run [inspector; exclaim; auditor] select resolves start)
    = (pre ++ [ListenerOff 1] ++ ea ++ et ++ eb)%list /\
    Forall (fun e => after_execution e = false) pre /\
    rows given = Some ["a"; "b"] /\
    sequence (fun k => AfterQueryExecution k select_raw given) [2] ea oa /\
    Forall (fun e => is_TransformRow e = true) et /\
    Forall (fun e => is_BeforeQueryResult e = true) eb /\
    (forall result,
        outcome (run [inspector; exclaim; auditor] select resolves start)
        = Returned result ->
        oa = Returned tt /\
        sequence (fun k => BeforeQueryResult k select_raw result) [0] eb (Returned tt)).
Proof.
  assert (H : In (Execute select [] select_raw (inr two_rows))
                 (events (run [inspector; exclaim; auditor] select resolves start))).
  { vm_compute. auto 10. }
  split; [exact H|].
  exact (result_hooks_ordered normalise runtime
           (configuration [inspector; exclaim; auditor]) select [] None resolves start
           _ _ _ _ H).
Defined.

(** X8 with hooks on both sides of a [transformQuery] hook. *)
Lemma hooks_share_query_witness :
  In (Execute (sql select_commented) [] select_commented (inr two_rows))
     (events (run [tracer; comment; decliner; auditor] select resolves start)) /\
  forall e,
    In e (events (run [tracer; comment; decliner; auditor] select resolves start)) ->
    (after_transform e = true -> query_of e = Some select_commented) /\
    (is_BeforeTransformQuery e = true -> query_of e = Some select_raw).
Proof.
  assert (H : In (Execute (sql select_commented) [] select_commented (inr two_rows))
                 (events (run [tracer; comment; decliner; auditor] select resolves
                              start))).
  { vm_compute. auto 10. }
  split; [exact H|].
  exact (hooks_share_query normalise runtime
           (configuration [tracer; comment; decliner; auditor]) select [] None resolves
           start _ _ _ _ H).
Defined.

(** X9 on a duplicate key. *)
Lemma classified_error_keeps_cause_witness :
  In (Execute select [] select_raw (inl duplicate))
     (events (run [observer] select (rejects duplicate) start)) /\
  exists t, outcome (run [observer] select (rejects duplicate) start) = Threw t /\
            original_error t = Some duplicate.
Proof.
  assert (H : In (Execute select [] select_raw (inl duplicate))
                 (events (run [observer] select (rejects duplicate) start))).
  { vm_compute. auto 10. }
  split; [exact H|].
  apply (classified_error_keeps_cause normalise runtime (configuration [observer])
           select [] None (rejects duplicate) start _ _ _ _ H).
  vm_compute. repeat constructor.
Defined.

(** X6 on a shutdown of the backend, on a duplicate key and on a
    successful call. *)
Lemma flag_set_by_termination_only_witness :
  In (Execute select [] select_raw (inl shutdown))
     (events (run [observer] select (rejects shutdown) start)) /\
  connection (final (run [observer] select (rejects shutdown) start))
  = set_terminated open_connection shutdown /\
  In (Execute select [] select_raw (inl duplicate))
     (events (run [observer] select (rejects duplicate) start)) /\
  connection (final (run [observer] select (rejects duplicate) start))
  = open_connection /\
  (forall text vs q error,
      ~ In (Execute text vs q (inl error))
           (events (run [auditor] select resolves start))) /\
  connection (final (run [auditor] select resolves start)) = open_connection.
Proof.
  assert (H1 : In (Execute select [] select_raw (inl shutdown))
                  (events (run [observer] select (rejects shutdown) start))).
  { vm_compute. auto 10. }
  assert (H2 : In (Execute select [] select_raw (inl duplicate))
                  (events (run [observer] select (rejects duplicate) start))).
  { vm_compute. auto 10. }
  assert (H3 : forall text vs q error,
             ~ In (Execute text vs q (inl error))
                  (events (run [auditor] select resolves start))).
  { intros text vs q error H. vm_compute in H.
    repeat (destruct H as [H|H]; [discriminate H|]). exact H. }
  split; [exact H1|]. split.
  { exact (proj1 (flag_set_by_termination_only normalise runtime
                    (configuration [observer]) select [] None (rejects shutdown) start)
                 _ _ _ _ H1). }
  split; [exact H2|]. split.
  { exact (proj1 (flag_set_by_termination_only normalise runtime
                    (configuration [observer]) select [] None (rejects duplicate) start)
                 _ _ _ _ H2). }
  split; [exact H3|].
  exact (proj2 (flag_set_by_termination_only normalise runtime
                  (configuration [auditor]) select [] None resolves start) H3).
Defined.

(** X11 with two hooks that decline, registered around a [transformQuery]
    hook. *)
Lemma execution_after_all_declined_witness :
  In (Execute (sql select_commented) [] select_commented (inr two_rows))
     (events (run [decliner; comment; decliner] select resolves start)) /\
  exists pre post,
    events (run [decliner; comment; decliner] select resolves start)
    = (pre ++ Execute (sql select_commented) [] select_commented (inr two_rows)
           :: post)%list /\
    filter is_BeforeQueryExecution pre
    = [BeforeQueryExecution 0 select_commented (Returned None);
       BeforeQueryExecution 2 select_commented (Returned None)] /\
    Forall (fun e => is_BeforeQueryExecution e = false) post.
Proof.
  assert (H : In (Execute (sql select_commented) [] select_commented (inr two_rows))
                 (events (run [decliner; comment; decliner] select resolves start))).
  { vm_compute. auto 10. }
  split; [exact H|].
  exact (execution_after_all_declined normalise runtime
           (configuration [decliner; comment; decliner]) select [] None resolves start
           _ _ _ _ H).
Defined.
